(** * SimScript [util.ts]: a shallow embedding and its properties

    The module under study, [simscript/util.ts], is a collection of small
    helpers: an assertion, a cached number formatter, an options applier,
    an element resolver, a clamp and the static geometry of [Point].

    Modelling conventions.
    - JavaScript numbers are binary64.  The properties that depend on
      rounding, overflow or [NaN] ([format], [Point.interpolate], [clamp] on
      [NaN], [Point.distance] against the Euclidean formula) are stated of
      the functions over the primitive binary64 numbers, in the module
      [Double].  The properties that rest only on the order of the numbers
      and on which operand a function returns (the cases of [clamp], the
      reading of [p1.z || 0 - p2.z || 0], the angle through [atan2]) are
      stated of the functions over the real numbers of the Standard
      Library, where [NaN] appears only from an absent operand.
    - An assignment [obj[key] = v] stores [v]: the members of a target are
      plain data properties.
    - Effects (the error console, a thrown value, the heap of objects the
      helpers mutate, the formatter cache) are threaded through a state and
      exception monad [M] over the record [world].
    - What the platform provides ([Intl.NumberFormat], selector matching of
      [document.querySelector], [String(v)]) is a field of the class
      [Platform]; the state of a form control and its properties
      ([checked], [selectedIndex], [valueAsNumber], [value]) are the class
      [FormControls]. *)

From Stdlib Require Import Floats Reals Lra Lia ZArith List Ascii String.
From stdpp Require Import gmap strings list fin_maps.

(** * Part I: the embedding *)

(** ** Values *)

(** The JavaScript values that the helpers receive or store.  Objects are
    references into the heap, numbered by their location: [VEvent l] is an
    instance of the class [Event], [VElement e] a DOM [Element], [VObject l]
    any other object (a plain object, a jQuery wrapper, ...); [VFunction f]
    is a callback. *)
Inductive value : Type :=
  | VUndefined
  | VNull
  | VBoolean (b : bool)
  | VNumber (r : R)
  | VString (s : string)
  | VFunction (f : nat)
  | VObject (l : nat)
  | VEvent (l : nat)
  | VElement (e : nat).

(** An instance of [Intl.NumberFormat]: its identity (the rank of its
    creation) and the options it was constructed with. *)
Record NumberFormat : Type := mkNumberFormat {
  nf_id : nat;
  nf_locale : string;
  useGrouping : bool;
  minimumFractionDigits : nat;
  maximumFractionDigits : nat
}.

(** ** The platform *)

(** What the browser provides and the module only calls. *)
Class Platform : Type := {
  (** [navigator.language] *)
  navigator_language : string;
  (** the largest fraction-digit count [Intl.NumberFormat] accepts (20 in
      older engines, 100 since ECMAScript 2023); beyond it the constructor
      throws a [RangeError] *)
  fraction_digits_limit : nat;
  (** [Intl.NumberFormat.prototype.format] *)
  NumberFormat_format : NumberFormat → float → string;
  (** the decimal separator of the locale in use *)
  decimal_separator : ascii;
  (** whether a string parses as a selector; [document.querySelector] throws
      a [SyntaxError] when it does not *)
  valid_selector : string → bool;
  (** [element.matches(selector)] *)
  Element_matches : nat → string → bool;
  (** [String(v)] for a value that is not a string *)
  ToString : value → string
}.

(** ** The world: everything the helpers read or mutate *)

Record world : Type := mkWorld {
  (** lines written by [console.error], oldest first *)
  console : list string;
  (** plain objects: for each, its members, that is the keys [k] with
      [k in obj], each with the value of [obj[k]] *)
  objects : gmap nat (gmap string value);
  (** instances of [Event]: for each, its listeners in registration order *)
  events : gmap nat (list value);
  (** the module-level constant [_numberFormats], keyed by decimal count *)
  _numberFormats : gmap nat NumberFormat;
  (** how many [Intl.NumberFormat] instances the module has constructed so
      far; the rank of an instance is its identity *)
  nf_created : nat;
  (** the elements of the document, in tree order *)
  document : list nat
}.

Definition set_console (f : list string → list string) (w : world) : world :=
  mkWorld (f (console w)) (objects w) (events w) (_numberFormats w)
          (nf_created w) (document w).

Definition set_objects
    (f : gmap nat (gmap string value) → gmap nat (gmap string value))
    (w : world) : world :=
  mkWorld (console w) (f (objects w)) (events w) (_numberFormats w)
          (nf_created w) (document w).

Definition set_events (f : gmap nat (list value) → gmap nat (list value))
    (w : world) : world :=
  mkWorld (console w) (objects w) (f (events w)) (_numberFormats w)
          (nf_created w) (document w).

Definition set_numberFormats
    (f : gmap nat NumberFormat → gmap nat NumberFormat) (w : world) : world :=
  mkWorld (console w) (objects w) (events w) (f (_numberFormats w))
          (nf_created w) (document w).

Definition set_nf_created (f : nat → nat) (w : world) : world :=
  mkWorld (console w) (objects w) (events w) (_numberFormats w)
          (f (nf_created w)) (document w).

(** The world when the module has just been loaded. *)
Definition initial_world : world := mkWorld [] ∅ ∅ ∅ 0 [].

(** ** Completions and the monad *)

(** What can be thrown: the source throws message strings ([throw msg]); the
    platform throws error objects, recorded by the name of their class. *)
Inductive thrown : Type :=
  | ThrownString (msg : string)
  | ThrownError (name : string).

(** How a call ends: it returns a value or it throws. *)
Inductive completion (A : Type) : Type :=
  | Normal (a : A)
  | Throw (t : thrown).
Arguments Normal {A} a.
Arguments Throw {A} t.

Definition M (A : Type) : Type := world → completion A * world.

#[export] Instance M_ret : MRet M := λ A a w, (Normal a, w).
#[export] Instance M_bind : MBind M := λ A B k m w,
  match m w with
  | (Normal a, w') => k a w'
  | (Throw t, w') => (Throw t, w')
  end.

Definition throw {A} (t : thrown) : M A := λ w, (Throw t, w).
Definition gets {A} (f : world → A) : M A := λ w, (Normal (f w), w).
Definition modify (f : world → world) : M unit := λ w, (Normal tt, f w).

(** [console.error(msg)] *)
Definition reported (msg : string) (w : world) : world :=
  set_console (λ c, c ++ [msg]) w.
Definition console_error (msg : string) : M unit := modify (reported msg).

(** ** [assert] *)

Definition assert (condition : bool) (msg : string) : M unit :=
  if negb condition then
    console_error msg ;;
    throw (ThrownString msg)
  else mret tt.

(** ** [format] and [_getNumberFormat] *)

(** [new Intl.NumberFormat(locale, {useGrouping, minimumFractionDigits,
    maximumFractionDigits})]: the platform checks the digit options against
    its limit, then allocates a fresh instance. *)
Definition new_NumberFormat `{Platform} (locale : string) (grouping : bool)
    (minfd maxfd : nat) : M NumberFormat :=
  if (minfd <=? fraction_digits_limit) && (maxfd <=? fraction_digits_limit)
     && (minfd <=? maxfd)
  then
    id ← gets nf_created;
    modify (set_nf_created S) ;;
    mret (mkNumberFormat id locale grouping minfd maxfd)
  else throw (ThrownError "RangeError").

Definition _getNumberFormat `{Platform} (decimals : nat) : M NumberFormat :=
  nf ← gets (λ w, _numberFormats w !! decimals);
  match nf with
  | Some nf => mret nf
  | None =>
      nf ← new_NumberFormat navigator_language true decimals decimals;
      modify (set_numberFormats <[decimals := nf]>) ;;
      mret nf
  end.

(** [decimals] is [None] when the argument is omitted: it defaults to 2. *)
Definition format `{Platform} (value : float) (decimals : option nat) : M string :=
  nf ← _getNumberFormat (default 2 decimals);
  mret (NumberFormat_format nf value).

(** ** [setOptions] *)

(** The [options] argument: absent, [null], or an object given by its
    enumerable properties in the order [for (key in options)] visits them. *)
Inductive options : Type :=
  | OUndefined
  | ONull
  | OObject (entries : list (string * value)).

(** The members of [obj]; an object unknown to the heap has none. *)
Definition members_of (obj : nat) (w : world) : gmap string value :=
  default ∅ (objects w !! obj).

(** [obj[key] = v], the member being a plain data property. *)
Definition assigned (obj : nat) (key : string) (v : value) (w : world) : world :=
  set_objects <[obj := <[key := v]> (members_of obj w)]> w.
Definition set_member (obj : nat) (key : string) (v : value) : M unit :=
  modify (assigned obj key v).

(** Modelled from the spec: the class [Event] of [./event], of which the
    module uses only the handler registration: [addEventListener] appends
    the handler to the listeners of the event. *)
Definition registered (ev : nat) (handler : value) (w : world) : world :=
  set_events (alter (λ ls, ls ++ [handler]) ev) w.
Definition addEventListener (ev : nat) (handler : value) : M unit :=
  modify (registered ev handler).

Definition not_defined (key : string) : string :=
  "Property " +:+ key +:+ " is not defined".

(** The body of the [for (let key in options)] loop, entry by entry. *)
Fixpoint setOptions_loop (obj : nat) (entries : list (string * value)) : M unit :=
  match entries with
  | [] => mret tt
  | (key, v) :: rest =>
      m ← gets (λ w, members_of obj w !! key);
      assert (bool_decide (is_Some m)) (not_defined key) ;;
      match m with
      | Some (VEvent ev) => addEventListener ev v
      | _ => set_member obj key v
      end ;;
      setOptions_loop obj rest
  end.

Definition setOptions (obj : nat) (opts : options) : M unit :=
  match opts with
  | OObject entries => setOptions_loop obj entries
  | OUndefined | ONull => mret tt
  end.

(** Whether the member of an object at [key] is the event [ev], and the
    handlers that a list of entries supplies for [ev], in order. *)
Definition is_event_member (m : gmap string value) (ev : nat) (key : string) : bool :=
  match m !! key with
  | Some (VEvent ev') => bool_decide (ev' = ev)
  | _ => false
  end.

Fixpoint handlers_for (m : gmap string value) (ev : nat)
    (entries : list (string * value)) : list value :=
  match entries with
  | [] => []
  | (key, v) :: rest =>
      if is_event_member m ev key then v :: handlers_for m ev rest
      else handlers_for m ev rest
  end.

(** What [setOptions] leaves alone, from a world [w] to a later one [w']:
    the keys of [obj], its event members, the other objects, the listeners
    already registered (more may follow them), the events there are, the
    document and the formatter cache. *)
Definition target_frame (obj : nat) (w w' : world) : Prop :=
  (∀ k, is_Some (members_of obj w' !! k) ↔ is_Some (members_of obj w !! k)) ∧
  (∀ k ev, members_of obj w !! k = Some (VEvent ev) →
     members_of obj w' !! k = Some (VEvent ev)) ∧
  (∀ o, o ≠ obj → objects w' !! o = objects w !! o) ∧
  (∀ ev ls, events w !! ev = Some ls →
     ∃ more, events w' !! ev = Some (ls ++ more)) ∧
  (∀ ev, events w !! ev = None → events w' !! ev = None) ∧
  document w' = document w ∧
  _numberFormats w' = _numberFormats w ∧
  nf_created w' = nf_created w.

(** ** [getElement] *)

(** [document.querySelector(selector)]: the first element of the document
    that matches, [null] when none does. *)
Definition querySelector `{Platform} (selector : string) : M value :=
  if valid_selector selector then
    doc ← gets document;
    mret (from_option VElement VNull
            (List.find (λ e, Element_matches e selector) doc))
  else throw (ThrownError "SyntaxError").

(** ['Element not found:' + selector] *)
Definition not_found `{Platform} (selector : value) : string :=
  "Element not found:" +:+
  match selector with VString s => s | v => ToString v end.

Definition instanceof_Element (v : value) : bool :=
  match v with VElement _ => true | _ => false end.

Definition getElement `{Platform} (selector : value) : M value :=
  e ← match selector with
      | VString s => querySelector s
      | _ => mret selector
      end;
  assert (instanceof_Element e) (not_found selector) ;;
  mret e.

(** ** [clamp] *)

(** A bound is [None] when the argument is [null] (or [undefined]: the test
    is the loose [!= null]).  Over the reals, that is for numbers other
    than [NaN]; [Double.clamp] is the function on binary64 numbers. *)
Definition clamp (value : R) (min max : option R) : R :=
  let above :=
    match max with
    | Some hi => if Rgt_dec value hi then hi else value
    | None => value
    end in
  match min with
  | Some lo => if Rlt_dec value lo then lo else above
  | None => above
  end.

(** ** Numbers that may be absent *)

(** The value of an optional numeric property such as [z?: number], and of
    the arithmetic on it: [undefined], [NaN] or a number. *)
Inductive jsnum : Type :=
  | JUndefined
  | JNaN
  | JNum (r : R).

(** [ToBoolean]: [undefined], [NaN] and [0] are falsy. *)
Definition truthy (a : jsnum) : bool :=
  match a with
  | JNum r => if Req_dec_T r 0 then false else true
  | _ => false
  end.

(** [a || b] *)
Definition js_or (a b : jsnum) : jsnum := if truthy a then a else b.

(** The arithmetic operators convert [undefined] to [NaN], which they
    propagate. *)
Definition js_arith (op : R → R → R) (a b : jsnum) : jsnum :=
  match a, b with
  | JNum r1, JNum r2 => JNum (op r1 r2)
  | _, _ => JNaN
  end.
Definition js_add : jsnum → jsnum → jsnum := js_arith Rplus.
Definition js_sub : jsnum → jsnum → jsnum := js_arith Rminus.
Definition js_mul : jsnum → jsnum → jsnum := js_arith Rmult.

(** [Math.sqrt], [NaN] on a negative argument. *)
Definition Math_sqrt (a : jsnum) : jsnum :=
  match a with
  | JNum r => if Rlt_dec r 0 then JNaN else JNum (sqrt r)
  | _ => JNaN
  end.

(** [Math.atan2(y, x)]: the angle of the point [(x, y)], in (-PI, PI].
    The reals have one zero: the engine, which has two, also returns -PI,
    for a negative zero [y] and a negative [x]. *)
Definition Math_atan2 (y x : R) : R :=
  if Rlt_dec 0 x then atan (y / x)
  else if Rlt_dec x 0 then
    if Rle_dec 0 y then atan (y / x) + PI else atan (y / x) - PI
  else if Rlt_dec 0 y then PI / 2
  else if Rlt_dec y 0 then - PI / 2
  else 0.

(** [Math.round]: the nearest integer, a tie going up: [floor(r + 1/2)]. *)
Definition Math_round (r : R) : R := IZR (Int_part (r + / 2)).

(** ** [Point] *)

Module Point.

(** [IPoint], which the class [Point] implements: [z] may be absent.  The
    coordinates are reals and the arithmetic on them is exact;
    [Double.Point] has the coordinates and the arithmetic of binary64. *)
Record IPoint : Type := mkPoint { x : R; y : R; z : jsnum }.

(** [new Point(x, y, z)]: a parameter defaults to 0 when the argument is
    [undefined]. *)
Definition new (x y : R) (z : jsnum) : IPoint :=
  mkPoint x y (match z with JUndefined => JNum 0 | _ => z end).

(** [clone()]: a new point built from the coordinates of this one. *)
Definition clone (p : IPoint) : IPoint := new (x p) (y p) (z p).

(** The operator [-] binds tighter than [||], which associates to the left:
    [p1.z || 0 - p2.z || 0] is [(p1.z || (0 - p2.z)) || 0]. *)
Definition distance (p1 p2 : IPoint) : jsnum :=
  let dx := (x p1 - x p2)%R in
  let dy := (y p1 - y p2)%R in
  let dz := js_or (js_or (z p1) (js_sub (JNum 0) (z p2))) (JNum 0) in
  Math_sqrt (js_add (JNum (dx * dx + dy * dy)) (js_mul dz dz)).

(** [radians] is [None] when the argument is omitted. *)
Definition angle (p1 p2 : IPoint) (radians : option bool) : R :=
  let angle := Math_atan2 (y p2 - y p1) (x p2 - x p1) in
  if default false radians then angle
  else Math_round (angle * 180 / PI).

(** The distance as the specification words it: the Euclidean distance, a
    missing [z] counting as 0. *)
Definition euclidean_distance (p1 p2 : IPoint) : jsnum :=
  let dx := (x p1 - x p2)%R in
  let dy := (y p1 - y p2)%R in
  let dz := js_sub (js_or (z p1) (JNum 0)) (js_or (z p2) (JNum 0)) in
  Math_sqrt (js_add (JNum (dx * dx + dy * dy)) (js_mul dz dz)).

End Point.

(** ** Numbers as the engine has them *)

(** The same functions over binary64 numbers, for the properties that
    depend on rounding, overflow or [NaN]. *)
Module Double.
#[local] Open Scope float_scope.

(** [ToNumber] of an optional number: [undefined] converts to [NaN]. *)
Definition ToNumber (a : option float) : float :=
  match a with Some n => n | None => nan end.

(** [ToBoolean] of an optional number: [undefined], [NaN] and the two
    zeros are falsy. *)
Definition truthy (a : option float) : bool :=
  match a with
  | Some n => negb (is_nan n || is_zero n)
  | None => false
  end.

(** [a || b] *)
Definition js_or (a b : option float) : option float :=
  if truthy a then a else b.

(** [Math.sqrt] *)
Definition Math_sqrt (n : float) : float := PrimFloat.sqrt n.

(** [clamp]: a bound is [None] when the argument is [null] or [undefined];
    [value > max] is [max < value]. *)
Definition clamp (value : float) (min max : option float) : float :=
  let above :=
    match max with
    | Some hi => if hi <? value then hi else value
    | None => value
    end in
  match min with
  | Some lo => if value <? lo then lo else above
  | None => above
  end.

Module Point.

Record IPoint : Type := mkPoint { x : float; y : float; z : option float }.

(** [new Point(x, y, z)] *)
Definition new (x y : float) (z : option float) : IPoint :=
  mkPoint x y (Some (match z with Some n => n | None => 0 end)).

(** [p1.z || 0 - p2.z || 0] is [(p1.z || (0 - p2.z)) || 0]. *)
Definition distance (p1 p2 : IPoint) : float :=
  let dx := x p1 - x p2 in
  let dy := y p1 - y p2 in
  let dz :=
    ToNumber (js_or (js_or (z p1) (Some (0 - ToNumber (z p2)))) (Some 0)) in
  Math_sqrt (dx * dx + dy * dy + dz * dz).

(** The arithmetic converts an absent [z] to [NaN]; the constructor then
    receives a number. *)
Definition interpolate (p1 p2 : IPoint) (pct : float) : IPoint :=
  new (x p1 + (x p2 - x p1) * pct)
      (y p1 + (y p2 - y p1) * pct)
      (Some (ToNumber (z p1) + (ToNumber (z p2) - ToNumber (z p1)) * pct)).

(** The distance as the specification words it: the Euclidean distance, a
    missing [z] counting as 0. *)
Definition euclidean_distance (p1 p2 : IPoint) : float :=
  let dx := x p1 - x p2 in
  let dy := y p1 - y p2 in
  let dz := ToNumber (js_or (z p1) (Some 0)) - ToNumber (js_or (z p2) (Some 0)) in
  Math_sqrt (dx * dx + dy * dy + dz * dz).

End Point.

End Double.

(** ** Vocabulary for the formatter *)

Definition is_digit (c : ascii) : bool :=
  (48 <=? nat_of_ascii c) && (nat_of_ascii c <=? 57).

(** The number of digits at the head of a text. *)
Fixpoint leading_digits (l : list ascii) : nat :=
  match l with
  | c :: rest => if is_digit c then S (leading_digits rest) else 0
  | [] => 0
  end.

(** The digits that follow the first [sep], none when there is no [sep]. *)
Fixpoint digits_after (sep : ascii) (l : list ascii) : nat :=
  match l with
  | c :: rest =>
      if Ascii.eqb c sep then leading_digits rest else digits_after sep rest
  | [] => 0
  end.

(** The number of fractional digits a rendered number shows. *)
Definition fraction_digits (sep : ascii) (s : string) : nat :=
  digits_after sep (list_ascii_of_string s).

(** What [Intl.NumberFormat] does with a formatter whose minimum and
    maximum fraction digits agree, in a locale that writes decimal digits
    after its separator: every finite number it renders shows that many.
    [NaN] and the infinities are rendered by name, without digits. *)
Definition renders_fixed_digits (P : Platform) : Prop :=
  ∀ nf v,
    is_finite v = true →
    minimumFractionDigits nf = maximumFractionDigits nf →
    fraction_digits decimal_separator (NumberFormat_format nf v) =
      minimumFractionDigits nf.

(** The invariant of the cache: the formatter kept for [d] was made by
    [_getNumberFormat d]; no instance is kept under two keys; and as many
    formatters have been constructed as there are decimal counts cached. *)
Definition cache_wf `{Platform} (w : world) : Prop :=
  (∀ d nf, _numberFormats w !! d = Some nf →
     minimumFractionDigits nf = d ∧ maximumFractionDigits nf = d ∧
     useGrouping nf = true ∧ nf_locale nf = navigator_language ∧
     d ≤ fraction_digits_limit ∧ nf_id nf < nf_created w) ∧
  (∀ d1 d2 nf1 nf2,
     _numberFormats w !! d1 = Some nf1 → _numberFormats w !! d2 = Some nf2 →
     nf_id nf1 = nf_id nf2 → d1 = d2) ∧
  size (_numberFormats w) = nf_created w.

(** The world after a sequence of calls of [format], whatever each call
    returned or threw. *)
Fixpoint exec_formats `{Platform} (calls : list (float * option nat)) (w : world) : world :=
  match calls with
  | [] => w
  | (v, d) :: rest => exec_formats rest (format v d w).2
  end.

(** The decimal counts, among those a sequence of calls of [format] asks
    for, that the platform accepts. *)
Definition accepted_counts `{Platform} (calls : list (float * option nat)) : gset nat :=
  list_to_set
    (filter (λ d, d ≤ fraction_digits_limit) ((λ c, default 2 c.2) <$> calls)).

(** ** Sample data *)

(** A target with a plain member and an event, in a document of three
    elements. *)
Definition sample_world : world :=
  mkWorld [] {[ 0 := {[ "name" := VString "old"; "tick" := VEvent 7 ]} ]}
          {[ 7 := [] ]} ∅ 0 [3; 4; 5].

(** Calls of [format] with zero decimals, the default, and a count beyond
    the sample platform's limit. *)
Definition sample_calls : list (float * option nat) :=
  [(1%float, Some 0); (2%float, None); (3%float, Some 101)].

(** A sample platform in the manner of an English-language browser.  Its
    formatter rounds half away from zero, groups the integer digits by three
    and prints as many fraction digits as the formatter's maximum; it writes
    [NaN] and the infinities by name. *)
Definition digit (n : Z) : ascii := ascii_of_nat (48 + Z.to_nat (n mod 10)).

Fixpoint fixed_digits (d : nat) (n : Z) : list ascii :=
  match d with
  | O => []
  | S d' => fixed_digits d' (n / 10) ++ [digit n]
  end.

Fixpoint int_digits (fuel : nat) (n : Z) : list ascii :=
  match fuel with
  | O => []
  | S fuel' =>
      if (n <? 10)%Z then [digit n] else int_digits fuel' (n / 10) ++ [digit n]
  end.

(** Commas between groups of three, on digits given least significant
    first. *)
Fixpoint group_rev (k : nat) (l : list ascii) : list ascii :=
  match l with
  | [] => []
  | c :: rest =>
      if k =? 3 then ","%char :: c :: group_rev 1 rest
      else c :: group_rev (S k) rest
  end.

(** The digits of [n >= 0], with fuel for one digit more than [n] has
    bits. *)
Definition int_text (grouping : bool) (n : Z) : list ascii :=
  let ds := int_digits (S (Z.to_nat (Z.log2 n))) n in
  if grouping then rev (group_rev 0 (rev ds)) else ds.

(** The absolute value [m * 2 ^ e] times [10 ^ d], rounded to the nearest
    integer, a tie going away from zero. *)
Definition scaled (d : nat) (m : positive) (e : Z) : Z :=
  let n := (Z.pos m * 10 ^ Z.of_nat d)%Z in
  if (0 <=? e)%Z then (n * 2 ^ e)%Z
  else ((2 * n + 2 ^ (- e)) / (2 * 2 ^ (- e)))%Z.

(** The sign, the grouped integer digits of [n / 10 ^ d], and [d] fraction
    digits after the point. *)
Definition fixed_text (nf : NumberFormat) (negative : bool) (n : Z) : string :=
  let d := maximumFractionDigits nf in
  string_of_list_ascii
    ((if negative then ["-"%char] else []) ++
     int_text (useGrouping nf) (n / 10 ^ Z.of_nat d) ++
     (if d =? 0 then [] else "."%char :: fixed_digits d (n mod 10 ^ Z.of_nat d))).

Definition sample_render (nf : NumberFormat) (v : float) : string :=
  match Prim2SF v with
  | S754_nan => "NaN"
  | S754_infinity negative => if negative then "-∞" else "∞"
  | S754_zero negative => fixed_text nf negative 0
  | S754_finite negative m e =>
      fixed_text nf negative (scaled (maximumFractionDigits nf) m e)
  end.

Definition sample_platform : Platform := {|
  navigator_language := "en-US";
  fraction_digits_limit := 100;
  NumberFormat_format := sample_render;
  decimal_separator := "."%char;
  valid_selector s :=
    match s with String c _ => negb (is_digit c) | EmptyString => false end;
  Element_matches e s :=
    if String.eqb s "div" then true
    else if String.eqb s "#chart" then e =? 4
    else if String.eqb s ".bar" then (e =? 4) || (e =? 5)
    else false;
  ToString v :=
    match v with
    | VUndefined => "undefined"
    | VNull => "null"
    | VBoolean b => if b then "true" else "false"
    | VNumber r =>
        string_of_list_ascii
          ((if Rlt_dec r 0 then ["-"%char] else []) ++
           int_text false (Int_part (Rabs r + / 2)))
    | VString s => s
    | VFunction _ => "function () { [native code] }"
    | VElement _ => "[object HTMLElement]"
    | VObject _ | VEvent _ => "[object Object]"
    end
|}.

(** ** [bind] *)

(** What the browser provides for a form control: its state (checked flag,
    selected index, text, bounds, options, ...) is the platform's, read and
    written through the properties [checked], [selectedIndex],
    [valueAsNumber] and [value].  A write converts and sanitizes the value
    as the kind of the control demands, or throws (an infinite
    [valueAsNumber], a [value] for a file chooser) and leaves the control as
    it was. *)
Class FormControls : Type := {
  form_state : Type;
  read_checked : form_state → bool;
  read_selectedIndex : form_state → Z;
  read_valueAsNumber : form_state → jsnum;
  read_value : form_state → string;
  write_checked : value → form_state → completion form_state;
  write_selectedIndex : value → form_state → completion form_state;
  write_valueAsNumber : value → form_state → completion form_state;
  write_value : value → form_state → completion form_state
}.

(** What [onInput] is called with: a boolean, a number or a string. *)
Inductive input_arg : Type :=
  | ABoolean (b : bool)
  | ANumber (n : jsnum)
  | AString (s : string).

(** The arrow function that [bind] registers, by what it captured: the
    span (if any), the three flags, the callback and the suffix. *)
Record listener : Type := mkListener {
  l_span : option nat;
  l_isCheck : bool;
  l_isSelect : bool;
  l_isNumber : bool;
  l_onInput : nat;
  l_suffix : string
}.

(** An element of the document that has an id: its [type], whether it is
    an [HTMLSelectElement], its state, the spans that [bind] inserted right
    after it (nearest first) and the listeners that [bind] registered on
    it, in registration order. *)
Record control `{FormControls} : Type := mkControl {
  ctl_type : string;
  ctl_isSelect : bool;
  ctl_state : form_state;
  ctl_after : list nat;
  ctl_listeners : list listener
}.
Arguments mkControl {_} _ _ _ _ _.

Record page `{FormControls} : Type := mkPage {
  (** [document.getElementById] *)
  controls : gmap string control;
  (** the [textContent] of the spans created so far *)
  spans : gmap nat string;
  (** how many spans have been created *)
  next_span : nat;
  (** the calls of [onInput] callbacks so far, oldest first *)
  invoked : list (nat * input_arg)
}.
Arguments mkPage {_} _ _ _ _.

(** The template [` ${input.value}${suffix}`]. *)
Definition label_text `{FormControls} (st : form_state) (suffix : string) : string :=
  " " +:+ read_value st +:+ suffix.

(** The value the listener hands to [onInput], by the flags it captured. *)
Definition listener_arg `{FormControls} (l : listener) (st : form_state) : input_arg :=
  if l_isCheck l then ABoolean (read_checked st)
  else if l_isSelect l then ANumber (JNum (IZR (read_selectedIndex st)))
  else if l_isNumber l then ANumber (read_valueAsNumber st)
  else AString (read_value st).

(** The first step of [bind], [// set initial value]: one property of the
    control is written, chosen by the kind of the control. *)
Definition set_initial_value `{FormControls} (input : control)
    (initialValue : value) : completion form_state :=
  let isCheck := String.eqb (ctl_type input) "checkbox" in
  let isNumber :=
    String.eqb (ctl_type input) "range" || String.eqb (ctl_type input) "number" in
  let isSelect := ctl_isSelect input in
  if isCheck then write_checked initialValue (ctl_state input)
  else if isSelect then write_selectedIndex initialValue (ctl_state input)
  else if isNumber then write_valueAsNumber initialValue (ctl_state input)
  else write_value initialValue (ctl_state input).

(** Reading [input.type] of [null] throws a [TypeError]; an error of the
    write ends the call before a span is made or a listener registered. *)
Definition bind `{FormControls} (id : string) (initialValue : value)
    (onInput : nat) (suffix : string) (pg : page) : completion unit * page :=
  match controls pg !! id with
  | None => (Throw (ThrownError "TypeError"), pg)
  | Some input =>
      let isCheck := String.eqb (ctl_type input) "checkbox" in
      let isNumber :=
        String.eqb (ctl_type input) "range" || String.eqb (ctl_type input) "number" in
      let isSelect := ctl_isSelect input in
      match set_initial_value input initialValue with
      | Throw t => (Throw t, pg)
      | Normal st =>
          let span :=
            if String.eqb (ctl_type input) "range" then Some (next_span pg)
            else None in
          let l := mkListener span isCheck isSelect isNumber onInput suffix in
          (Normal tt,
           mkPage
             (<[id := mkControl (ctl_type input) (ctl_isSelect input) st
                        (from_option (λ s, s :: ctl_after input) (ctl_after input) span)
                        (ctl_listeners input ++ [l])]> (controls pg))
             (from_option (λ s, <[s := label_text st suffix]> (spans pg))
                          (spans pg) span)
             (from_option (λ _, S (next_span pg)) (next_span pg) span)
             (invoked pg))
      end
  end.

(** One run of a registered listener, the control being in state [st]. *)
Definition run_listener `{FormControls} (st : form_state) (pg : page)
    (l : listener) : page :=
  mkPage (controls pg)
         (from_option (λ s, <[s := label_text st (l_suffix l)]> (spans pg))
                      (spans pg) (l_span l))
         (next_span pg)
         (invoked pg ++ [(l_onInput l, listener_arg l st)]).

(** An [input] event on the control [id]: its listeners run in the order
    of their registration. *)
Definition input_event `{FormControls} (id : string) (pg : page) : page :=
  match controls pg !! id with
  | None => pg
  | Some input => foldl (run_listener (ctl_state input)) pg (ctl_listeners input)
  end.

(** The spans that the listeners of a control update. *)
Definition listener_spans (ls : list listener) : list nat := omap l_span ls.

(** A page as [bind] builds it: every listener has a span of its own, which
    has been created. *)
Definition page_wf `{FormControls} (pg : page) : Prop :=
  ∀ id c, controls pg !! id = Some c →
    NoDup (listener_spans (ctl_listeners c)) ∧
    Forall (λ s, s < next_span pg) (listener_spans (ctl_listeners c)).

(** Every label of the control [id] shows the control's value. *)
Definition labels_in_sync `{FormControls} (id : string) (pg : page) : Prop :=
  ∀ c l s, controls pg !! id = Some c → l ∈ ctl_listeners c → l_span l = Some s →
    spans pg !! s = Some (label_text (ctl_state c) (l_suffix l)).

(** A sample platform of form controls: the four properties are stored as
    they are written, a value of another kind leaving the state as it is;
    a file chooser refuses any [value] but the empty string. *)
Record sample_state : Type := mkSampleState {
  s_checked : bool;
  s_selectedIndex : Z;
  s_valueAsNumber : jsnum;
  s_value : string;
  s_file : bool
}.

Definition sample_controls : FormControls := {|
  form_state := sample_state;
  read_checked := s_checked;
  read_selectedIndex := s_selectedIndex;
  read_valueAsNumber := s_valueAsNumber;
  read_value := s_value;
  write_checked v st :=
    Normal
      match v with
      | VBoolean b =>
          mkSampleState b (s_selectedIndex st) (s_valueAsNumber st) (s_value st)
                        (s_file st)
      | _ => st
      end;
  write_selectedIndex v st := Normal st;
  write_valueAsNumber v st :=
    Normal
      match v with
      | VNumber r =>
          mkSampleState (s_checked st) (s_selectedIndex st) (JNum r) (s_value st)
                        (s_file st)
      | _ => st
      end;
  write_value v st :=
    match v with
    | VString s =>
        if s_file st && negb (String.eqb s EmptyString)
        then Throw (ThrownError "InvalidStateError")
        else Normal (mkSampleState (s_checked st) (s_selectedIndex st)
                                   (s_valueAsNumber st) s (s_file st))
    | _ => if s_file st then Throw (ThrownError "InvalidStateError") else Normal st
    end
|}.

(** A page with a checkbox, a slider and a file chooser, nothing bound
    yet. *)
Definition sample_page : @page sample_controls :=
  @mkPage sample_controls
    {[ "mute" := @mkControl sample_controls "checkbox" false
                   (mkSampleState false 0 JNaN "on" false) [] [];
       "speed" := @mkControl sample_controls "range" false
                    (mkSampleState false 0 (JNum 50) "50" false) [] [];
       "upload" := @mkControl sample_controls "file" false
                     (mkSampleState false 0 JNaN EmptyString true) [] [] ]}
    ∅ 0 [].

(** ** Proof automation *)

(** Unfolds the monadic plumbing of a goal. *)
Ltac run_M :=
  repeat (cbn [mbind mret M_bind M_ret throw gets modify console_error] in *;
          unfold mbind, mret, M_bind, M_ret, throw, gets, modify,
                 console_error in *).

(** Refutes that a bound of [clamp] is crossed: the bound is null, or the
    value is on the right side of it. *)
Ltac no_bound :=
  let H := fresh in
  intros (? & H & ?);
  first [ discriminate H | injection H as <-; (lra || (unfold Rgt in *; lra)) ].

(** * Part II: properties *)

(** ** Binary64 numbers *)

(** Facts of IEEE 754 arithmetic, from the specification of the primitive
    operations. *)

Section Binary64.
#[local] Open Scope float_scope.

Lemma Prim2SF_zero : Prim2SF 0 = S754_zero false.
Proof. reflexivity. Qed.

Lemma Prim2SF_nan : Prim2SF nan = S754_nan.
Proof. reflexivity. Qed.

Lemma SFcompare_refl (sf : spec_float) :
  sf ≠ S754_nan → SFcompare sf sf = Some Eq.
Proof.
  destruct sf as [s|s| |s m e]; cbn; try done.
  - by destruct s.
  - intros _. rewrite Z.compare_refl, Pos.compare_cont_refl. by destruct s.
Qed.

Lemma SFcompare_antisym (a b : spec_float) :
  SFcompare b a = CompOpp <$> SFcompare a b.
Proof.
  destruct a as [sa|sa| |sa ma ea], b as [sb|sb| |sb mb eb]; cbn; try done;
    try (by destruct sa); try (by destruct sb); try (by destruct sa, sb).
  f_equal. rewrite (Z.compare_antisym ea eb).
  destruct sa, sb; try done; destruct (ea ?= eb)%Z; cbn; try done;
    change (PosDef.Pos.compare_cont Eq mb ma) with (Pos.compare_cont (CompOpp Eq) mb ma);
    by rewrite <- (Pos.compare_cont_antisym ma mb Eq).
Qed.

Lemma is_nan_spec (x : float) : is_nan x = true ↔ Prim2SF x = S754_nan.
Proof.
  unfold is_nan. rewrite FloatAxioms.eqb_spec. unfold SFeqb.
  destruct (Prim2SF x) as [s|s| |s m e] eqn:E; [| |done|];
    (rewrite SFcompare_refl by done); cbn; split; done.
Qed.

Lemma is_nan_false (x : float) : is_nan x = false ↔ Prim2SF x ≠ S754_nan.
Proof.
  rewrite <- is_nan_spec. destruct (is_nan x); split; try done.
Qed.

Lemma is_finite_spec (x : float) :
  is_finite x = true ↔
  match Prim2SF x with S754_zero _ | S754_finite _ _ _ => True | _ => False end.
Proof.
  unfold is_finite, is_infinity. 
  destruct (is_nan x) eqn:Hn.
  { apply is_nan_spec in Hn. rewrite Hn. cbn. split; [done|tauto]. }
  apply is_nan_false in Hn. rewrite FloatAxioms.eqb_spec, abs_spec. cbn [orb].
  change (Prim2SF infinity) with (S754_infinity false).
  destruct (Prim2SF x) as [s|s| |s m e]; cbn; try done; split; try done; tauto.
Qed.

Lemma ltb_false_leb (x y : float) :
  is_nan x = false → is_nan y = false → (x <? y) = false → (y <=? x) = true.
Proof.
  rewrite !is_nan_false, FloatAxioms.ltb_spec, FloatAxioms.leb_spec. unfold SFltb, SFleb.
  rewrite (SFcompare_antisym (Prim2SF x) (Prim2SF y)). intros Hx Hy.
  destruct (Prim2SF x) as [s|s| |s m e], (Prim2SF y) as [s'|s'| |s' m' e'];
    try done; try (by destruct s, s');
    cbn; destruct s, s'; try done; destruct (e ?= e')%Z; try done;
    destruct (Pos.compare_cont Eq m m'); done.
Qed.

Lemma leb_refl (x : float) : is_nan x = false → (x <=? x) = true.
Proof.
  rewrite is_nan_false, FloatAxioms.leb_spec. unfold SFleb. intros H.
  by rewrite (SFcompare_refl _ H).
Qed.

Lemma leb_not_nan (x y : float) :
  (x <=? y) = true → is_nan x = false ∧ is_nan y = false.
Proof.
  rewrite !is_nan_false, FloatAxioms.leb_spec. unfold SFleb.
  destruct (Prim2SF x), (Prim2SF y); cbn; try done.
Qed.

(** [NaN] propagates through the arithmetic. *)
Lemma add_nan_l x : nan + x = nan.
Proof. apply Prim2SF_inj. by rewrite add_spec. Qed.
Lemma add_nan_r x : x + nan = nan.
Proof. apply Prim2SF_inj. rewrite add_spec. cbn. by destruct (Prim2SF x). Qed.
Lemma sub_nan_l x : nan - x = nan.
Proof. apply Prim2SF_inj. by rewrite sub_spec. Qed.
Lemma sub_nan_r x : x - nan = nan.
Proof. apply Prim2SF_inj. rewrite sub_spec. cbn. by destruct (Prim2SF x). Qed.
Lemma mul_nan_l x : nan * x = nan.
Proof. apply Prim2SF_inj. by rewrite mul_spec. Qed.
Lemma mul_nan_r x : x * nan = nan.
Proof. apply Prim2SF_inj. rewrite mul_spec. cbn. by destruct (Prim2SF x). Qed.

(** Adding a product by zero to a finite number gives the number back. *)
Lemma add_mul_zero (c d : float) :
  is_finite c = true → is_finite d = true → (c + d * 0 =? c) = true.
Proof.
  rewrite !is_finite_spec, FloatAxioms.eqb_spec, add_spec, mul_spec. cbn [Prim2SF_zero].
  change (Prim2SF 0) with (S754_zero false). unfold SFeqb.
  destruct (Prim2SF c) as [sc|sc| |sc mc ec] eqn:Hc,
           (Prim2SF d) as [sd|sd| |sd md ed]; try done; intros _ _; cbn.
  - by destruct sc, sd.
  - by destruct sc, sd.
  - rewrite Z.compare_refl, Pos.compare_cont_refl. by destruct sc.
  - rewrite Z.compare_refl, Pos.compare_cont_refl. by destruct sc.
Qed.

Lemma sub_zero_r (x : float) : x - 0 = x.
Proof.
  apply Prim2SF_inj. rewrite sub_spec. change (Prim2SF 0) with (S754_zero false).
  destruct (Prim2SF x) as [s|s| |s m e]; cbn; try done. by destruct s.
Qed.

Lemma is_nan_eq (x : float) : is_nan x = true → x = nan.
Proof. rewrite is_nan_spec. intros H. apply Prim2SF_inj. by rewrite H. Qed.

(** No number is below or above [NaN]. *)
Lemma ltb_nan_l (x y : float) : is_nan x = true → (x <? y) = false.
Proof.
  intros ->%is_nan_eq. rewrite FloatAxioms.ltb_spec. reflexivity.
Qed.

Lemma ltb_nan_r (x y : float) : is_nan y = true → (x <? y) = false.
Proof.
  intros ->%is_nan_eq. rewrite FloatAxioms.ltb_spec.
  change (Prim2SF nan) with S754_nan. unfold SFltb. by destruct (Prim2SF x).
Qed.

Lemma is_zero_spec (x : float) :
  is_zero x = true ↔ match Prim2SF x with S754_zero _ => True | _ => False end.
Proof.
  unfold is_zero. rewrite FloatAxioms.eqb_spec.
  change (Prim2SF 0) with (S754_zero false). unfold SFeqb.
  destruct (Prim2SF x) as [s|s| |s m e]; cbn; split; try done; by destruct s.
Qed.

(** A finite difference has finite operands. *)
Lemma sub_finite (a b : float) :
  is_finite (a - b) = true → is_finite a = true ∧ is_finite b = true.
Proof.
  rewrite !is_finite_spec, sub_spec.
  destruct (Prim2SF a) as [sa|sa| |sa ma ea], (Prim2SF b) as [sb|sb| |sb mb eb];
    cbn; try done; by destruct sa, sb.
Qed.

(** [0 - x] is zero, or [NaN], exactly when [x] is. *)
Lemma zero_sub_class (x : float) :
  is_nan (0 - x) = is_nan x ∧ is_zero (0 - x) = is_zero x.
Proof.
  assert (∀ b c : bool, (b = true ↔ c = true) → b = c) as Hiff.
  { intros [] [] [? ?]; try done; [symmetry|]; auto. }
  split; apply Hiff.
  - rewrite !is_nan_spec, sub_spec. change (Prim2SF 0) with (S754_zero false).
    destruct (Prim2SF x) as [s|s| |s m e]; cbn; try done. by destruct s.
  - rewrite !is_zero_spec, sub_spec. change (Prim2SF 0) with (S754_zero false).
    destruct (Prim2SF x) as [s|s| |s m e]; cbn; try done. by destruct s.
Qed.

(** Multiplying by 1 is exact: the mantissa is shifted by 52 bits and
    shifted back. *)
Lemma digits2_pos_xO (p : positive) :
  Z.pos (digits2_pos (xO p)) = (Z.pos (digits2_pos p) + 1)%Z.
Proof. cbn [digits2_pos]. apply Pos2Z.inj_succ. Qed.

Lemma digits2_pos_shift52 (m : positive) :
  Z.pos (digits2_pos (Pos.mul 4503599627370496 m)) =
    (Z.pos (digits2_pos m) + 52)%Z.
Proof. cbv [Pos.mul]. rewrite !digits2_pos_xO. lia. Qed.

Lemma shr_shift52 (m : positive) :
  SpecFloat.iter_pos shr_1 52
    {| shr_m := Z.pos (Pos.mul 4503599627370496 m);
       shr_r := false; shr_s := false |} =
  {| shr_m := Z.pos m; shr_r := false; shr_s := false |}.
Proof. reflexivity. Qed.

Lemma SFmul_one (s : bool) (m : positive) (e : Z) :
  SpecFloat.bounded prec emax m e = true →
  SFmul prec emax (S754_finite s m e) (S754_finite false 4503599627370496 (-52)) =
    S754_finite s m e.
Proof.
  unfold SpecFloat.bounded, canonical_mantissa. intros [Hc He]%andb_true_iff.
  apply Z.eqb_eq in Hc.
  unfold SFmul. rewrite Pos.mul_comm, xorb_false_r.
  unfold binary_round_aux, shr_fexp.
  unfold Zdigits2 at 1. rewrite digits2_pos_shift52.
  replace (Z.pos (digits2_pos m) + 52 + (e + -52))%Z
    with (Z.pos (digits2_pos m) + e)%Z by lia.
  rewrite Hc. replace (e - (e + -52))%Z with 52%Z by lia.
  cbn [shr shr_record_of_loc]. rewrite shr_shift52.
  cbn [shr_m loc_of_shr_record round_nearest_even].
  replace (e + -52 + 52)%Z with e by lia.
  cbn [Zdigits2]. rewrite Hc, Z.sub_diag. cbn [shr shr_m].
  by rewrite He.
Qed.

Lemma mul_one_r (x : float) : x * 1 = x.
Proof.
  apply Prim2SF_inj. rewrite mul_spec.
  change (Prim2SF 1) with (S754_finite false 4503599627370496 (-52)).
  pose proof (Prim2SF_valid x) as Hv.
  destruct (Prim2SF x) as [s|s| |s m e] eqn:E; try done.
  - cbn. by destruct s.
  - cbn. by destruct s.
  - by apply SFmul_one.
Qed.

End Binary64.

(** ** [assert] *)

(** C7: [assert condition msg] throws if and only if [condition] is false;
    when it throws, the thrown value is [msg] and the world it leaves is
    [reported msg w]: [msg] has been appended to the error console, nothing
    else has changed; when [condition] is true the call returns normally
    and leaves the world as it was. *)
Theorem assert_spec (condition : bool) (msg : string) (w : world) :
  ((∃ t w', assert condition msg w = (Throw t, w')) ↔ condition = false) ∧
  (condition = false →
     assert condition msg w =
       (Throw (ThrownString msg), reported msg w) ∧
     console (reported msg w) = console w ++ [msg]) ∧
  (condition = true → assert condition msg w = (Normal tt, w)).
Proof.
  destruct condition; cbn.
  - split; [split|split]; try done. intros (t & w' & H). discriminate H.
  - split; [split|split]; try done. intros _. eauto.
Qed.

(** ** [clamp] *)

Section Clamp.
#[local] Open Scope R_scope.

Example clamp_inside : clamp 5 (Some 0) (Some 10) = 5.
Proof. unfold clamp. destruct (Rlt_dec 5 0), (Rgt_dec 5 10); lra. Qed.

Example clamp_below : clamp (-5) (Some 0) (Some 10) = 0.
Proof. unfold clamp. destruct (Rlt_dec (-5) 0); lra. Qed.

Example clamp_above_no_min : clamp 15 None (Some 10) = 10.
Proof. unfold clamp. destruct (Rgt_dec 15 10); lra. Qed.

Example clamp_unbounded : clamp 5 None None = 5.
Proof. reflexivity. Qed.

(** C4: [clamp value min max] is [min] when [min] is not null and
    [value < min]; otherwise it is [max] when [max] is not null and
    [value > max]; otherwise it is [value].  The four examples of the
    specification follow. *)
Theorem clamp_spec (value : R) (min max : option R) :
  let below := ∃ lo, min = Some lo ∧ value < lo in
  let above := ∃ hi, max = Some hi ∧ value > hi in
  ((∃ lo, min = Some lo ∧ value < lo ∧ clamp value min max = lo) ∨
   (¬ below ∧ ∃ hi, max = Some hi ∧ value > hi ∧ clamp value min max = hi) ∨
   (¬ below ∧ ¬ above ∧ clamp value min max = value)) ∧
  clamp 5 (Some 0) (Some 10) = 5 ∧
  clamp (-5) (Some 0) (Some 10) = 0 ∧
  clamp 15 None (Some 10) = 10 ∧
  clamp 5 None None = 5.
Proof.
  intros below above. split.
  - unfold clamp, below, above.
    destruct min as [lo|], max as [hi|];
      repeat match goal with
             | |- context [Rlt_dec ?a ?b] => destruct (Rlt_dec a b)
             | |- context [Rgt_dec ?a ?b] => destruct (Rgt_dec a b)
             end;
      first
        [ left; eexists; split; [reflexivity | split; [assumption | reflexivity]]
        | right; left; split;
          [ no_bound
          | eexists; split; [reflexivity | split; [assumption | reflexivity]] ]
        | right; right; repeat split; solve [ no_bound | reflexivity ] ].
  - auto using clamp_inside, clamp_below, clamp_above_no_min, clamp_unbounded.
Qed.

End Clamp.

(** ** Numbers that may be absent *)

Section Numbers.
#[local] Open Scope R_scope.

Lemma truthy_JNum (r : R) : truthy (JNum r) = true ↔ r ≠ 0.
Proof. cbn. destruct (Req_dec_T r 0); split; intros; congruence. Qed.

Lemma truthy_nonzero (r : R) : r ≠ 0 → truthy (JNum r) = true.
Proof. apply truthy_JNum. Qed.

Lemma truthy_zero : truthy (JNum 0) = false.
Proof. cbn. destruct (Req_dec_T 0 0); congruence. Qed.

Lemma Math_sqrt_nonneg (r : R) : 0 <= r → Math_sqrt (JNum r) = JNum (sqrt r).
Proof. intros Hr. cbn. destruct (Rlt_dec r 0); [lra | reflexivity]. Qed.



End Numbers.

Section Atan2.
#[local] Open Scope R_scope.



End Atan2.

(** ** [Point] *)

Section PointProps.
Import Point.
#[local] Open Scope R_scope.

Lemma squares_nonneg (a b c : R) : 0 <= a * a + b * b + c * c.
Proof.
  pose proof (Rle_0_sqr a). pose proof (Rle_0_sqr b). pose proof (Rle_0_sqr c).
  unfold Rsqr in *. lra.
Qed.

Lemma Math_sqrt_squares (u v t : R) :
  Math_sqrt (js_add (JNum (u * u + v * v)) (js_mul (JNum t) (JNum t))) =
  JNum (sqrt (u * u + v * v + t * t)).
Proof. apply Math_sqrt_nonneg, squares_nonneg. Qed.

(** When [p1.z] is a number other than 0, it is the whole of [dz]: the
    coordinate [p2.z] plays no part in the result. *)
Lemma distance_first_z (p1 p2 : IPoint) (a : R) :
  z p1 = JNum a → a ≠ 0 →
  distance p1 p2 =
    JNum (sqrt ((x p1 - x p2) * (x p1 - x p2) +
                (y p1 - y p2) * (y p1 - y p2) + a * a)).
Proof.
  intros Hz Ha. unfold distance, js_or. rewrite Hz.
  rewrite (truthy_nonzero a Ha), (truthy_nonzero a Ha).
  apply Math_sqrt_squares.
Qed.

(** When [p1.z] is absent or 0, or when [p2.z] is, the result is the
    Euclidean distance. *)
Lemma distance_euclidean (p1 p2 : IPoint) :
  truthy (z p1) = false ∨ truthy (z p2) = false →
  distance p1 p2 = euclidean_distance p1 p2.
Proof.
  unfold distance, euclidean_distance, js_or.
  destruct (z p1) as [| |a], (z p2) as [| |b];
    repeat (cbn [truthy js_sub js_arith];
            match goal with
            | |- context [Req_dec_T ?u ?v] => destruct (Req_dec_T u v)
            end);
    cbn [truthy js_sub js_arith];
    intros [H|H]; try discriminate H; subst;
    try solve [ exfalso; match goal with n : _ ≠ _ |- _ => apply n; lra end ];
    rewrite !Math_sqrt_squares; do 2 f_equal; ring.
Qed.

(** C1, at a failing input: the distance of the point (0, 0, 1) to itself
    is computed as 1, where the Euclidean distance is 0. *)
Theorem distance_to_itself :
  let p := mkPoint 0 0 (JNum 1) in
  distance p p = JNum 1 ∧
  euclidean_distance p p = JNum 0 ∧
  distance p p ≠ euclidean_distance p p.
Proof.
  intros p.
  assert (distance p p = JNum 1) as Hd.
  { rewrite (distance_first_z p p 1) by (reflexivity || lra).
    cbn [x y p]. replace (_ + _) with 1 by ring. by rewrite sqrt_1. }
  assert (euclidean_distance p p = JNum 0) as He.
  { unfold euclidean_distance, js_or. cbn [z x y p].
    rewrite (truthy_nonzero 1) by lra. cbn [js_sub js_mul js_add js_arith].
    rewrite Math_sqrt_nonneg by lra. replace (_ + _) with 0 by ring.
    by rewrite sqrt_0. }
  rewrite Hd, He. repeat split. intros [= H]. lra.
Qed.


End PointProps.

(** ** [Point.interpolate] in binary64 *)

Section DoublePoint.
Import Double Double.Point.
#[local] Open Scope float_scope.
#[local] Set Warnings "-inexact-float".

(** At [pct = 0] every coordinate is the first point's, the difference
    being finite. *)
Lemma interpolate_coordinate_0 (c1 c2 : float) :
  is_finite (c2 - c1) = true → (c1 + (c2 - c1) * 0 =? c1) = true.
Proof.
  intros H. apply add_mul_zero; [|done]. by apply sub_finite in H as [_ ?].
Qed.

(** C6: when both points have a [z], [interpolate p1 p2 pct] is the point
    whose coordinates are [c1 + (c2 - c1) * pct], computed in binary64, for
    each of [x], [y] and [z].  At [pct = 0] each coordinate equals the one
    of [p1], provided the difference of the two coordinates is finite (it
    has not overflowed).  At [pct = 1] each coordinate is [c1 + (c2 - c1)],
    rounded after the subtraction and after the addition, which need not be
    the coordinate of [p2]: from 0.7 to 0.1 it is 0.09999999999999998.
    Midway between (0, 0, 0) and (10, 0, 0) lies (5, 0, 0). *)
Theorem interpolate_spec (p1 p2 : IPoint) (pct z1 z2 : float) :
  z p1 = Some z1 → z p2 = Some z2 →
  interpolate p1 p2 pct =
    mkPoint (x p1 + (x p2 - x p1) * pct) (y p1 + (y p2 - y p1) * pct)
            (Some (z1 + (z2 - z1) * pct)) ∧
  (is_finite (x p2 - x p1) = true → (x (interpolate p1 p2 0) =? x p1) = true) ∧
  (is_finite (y p2 - y p1) = true → (y (interpolate p1 p2 0) =? y p1) = true) ∧
  (is_finite (z2 - z1) = true →
   ∃ z0, z (interpolate p1 p2 0) = Some z0 ∧ (z0 =? z1) = true) ∧
  interpolate p1 p2 1 =
    mkPoint (x p1 + (x p2 - x p1)) (y p1 + (y p2 - y p1)) (Some (z1 + (z2 - z1))) ∧
  y (interpolate (mkPoint 0 0.7 (Some 0)) (mkPoint 0 0.1 (Some 0)) 1) =
    0.09999999999999998 ∧
  interpolate (mkPoint 0 0 (Some 0)) (mkPoint 10 0 (Some 0)) 0.5 =
    mkPoint 5 0 (Some 0).
Proof.
  intros Hz1 Hz2. unfold interpolate, new. rewrite Hz1, Hz2. cbn [x y z ToNumber].
  split; [done|].
  split; [apply interpolate_coordinate_0|].
  split; [apply interpolate_coordinate_0|].
  split.
  { intros H. eexists. split; [reflexivity|]. by apply interpolate_coordinate_0. }
  split; [by rewrite !mul_one_r|].
  split; vm_compute; reflexivity.
Qed.

(** A quarter of the way from (1, 2, 3) to (5, 4, 3), and the start of the
    way. *)
Lemma interpolate_spec_witness :
  interpolate (mkPoint 1 2 (Some 3)) (mkPoint 5 4 (Some 3)) 0.25 =
    mkPoint 2 2.5 (Some 3) ∧
  (x (interpolate (mkPoint 1 2 (Some 3)) (mkPoint 5 4 (Some 3)) 0) =? 1) = true.
Proof.
  destruct (interpolate_spec (mkPoint 1 2 (Some 3)) (mkPoint 5 4 (Some 3))
              0.25 3 3 eq_refl eq_refl) as (H & H0 & _).
  split; [rewrite H; vm_compute; reflexivity|].
  apply H0. vm_compute. reflexivity.
Defined.

(** From (0, 0.7, 0) to (0, 0.1, 0) at [pct = 1]: the [y] of the result is
    0.09999999999999998, which is not the [y] of the second point (0.1),
    neither as a number nor as a value. *)
Lemma interpolate_1_not_p2 :
  let p1 := mkPoint 0 0.7 (Some 0) in
  let p2 := mkPoint 0 0.1 (Some 0) in
  y (interpolate p1 p2 1) = 0.09999999999999998 ∧
  (y (interpolate p1 p2 1) =? y p2) = false ∧
  (y (interpolate p1 p2 1) <? y p2) = true.
Proof. vm_compute. done. Qed.

End DoublePoint.

(** ** [setOptions] *)

Lemma members_of_assigned (obj : nat) (key : string) (v : value) (w : world) :
  members_of obj (assigned obj key v w) = <[key := v]> (members_of obj w).
Proof. unfold members_of at 1. cbn. by rewrite lookup_insert_eq. Qed.

Lemma members_of_registered (obj ev : nat) (h : value) (w : world) :
  members_of obj (registered ev h w) = members_of obj w.
Proof. reflexivity. Qed.

(** One turn of the loop, by the three cases of the source. *)
Lemma setOptions_loop_missing obj key v rest w :
  members_of obj w !! key = None →
  setOptions_loop obj ((key, v) :: rest) w =
    (Throw (ThrownString (not_defined key)), reported (not_defined key) w).
Proof. intros H. cbn. run_M. by rewrite H. Qed.

Lemma setOptions_loop_event obj key v rest w ev :
  members_of obj w !! key = Some (VEvent ev) →
  setOptions_loop obj ((key, v) :: rest) w =
    setOptions_loop obj rest (registered ev v w).
Proof. intros H. cbn. run_M. by rewrite H. Qed.

Lemma setOptions_loop_assign obj key v rest w m :
  members_of obj w !! key = Some m → (∀ ev, m ≠ VEvent ev) →
  setOptions_loop obj ((key, v) :: rest) w =
    setOptions_loop obj rest (assigned obj key v w).
Proof.
  intros H Hm. cbn. run_M. rewrite H. cbn.
  destruct m; try reflexivity. by destruct (Hm l).
Qed.

(** A member is an event or it is not. *)
Lemma event_or_not (m : value) : (∃ ev, m = VEvent ev) ∨ (∀ ev, m ≠ VEvent ev).
Proof. destruct m; eauto; right; intros ev; discriminate. Qed.

(** The loop over a concatenation: the second part runs from where the
    first part ends, unless the first part throws. *)
Lemma setOptions_loop_app obj pre post w :
  setOptions_loop obj (pre ++ post) w =
    match setOptions_loop obj pre w with
    | (Normal _, w1) => setOptions_loop obj post w1
    | (Throw t, w1) => (Throw t, w1)
    end.
Proof.
  revert w. induction pre as [|[key v] pre IH]; intros w; [reflexivity|].
  rewrite <- app_comm_cons.
  destruct (members_of obj w !! key) as [m|] eqn:Hk.
  - destruct (event_or_not m) as [[ev ->]|Hm].
    + rewrite !(setOptions_loop_event _ _ _ _ _ _ Hk). apply IH.
    + rewrite !(setOptions_loop_assign _ _ _ _ _ _ Hk Hm). apply IH.
  - by rewrite !(setOptions_loop_missing _ _ _ _ _ Hk).
Qed.

Lemma handlers_for_ext (m1 m2 : gmap string value) ev entries :
  (∀ k, k ∈ entries.*1 → m1 !! k = m2 !! k) →
  handlers_for m1 ev entries = handlers_for m2 ev entries.
Proof.
  induction entries as [|[k v] rest IH]; intros H; [reflexivity|].
  cbn. unfold is_event_member. rewrite (H k) by (cbn; left).
  rewrite IH; [reflexivity|]. intros k' Hk'. apply H. cbn. by right.
Qed.

(** What a call that meets only members of [obj] leaves behind. *)
Lemma setOptions_loop_success obj entries w :
  NoDup entries.*1 →
  Forall (λ kv, is_Some (members_of obj w !! kv.1)) entries →
  ∃ w',
    setOptions_loop obj entries w = (Normal tt, w') ∧
    console w' = console w ∧
    (∀ k v, (k, v) ∈ entries →
       (∀ ev, members_of obj w !! k ≠ Some (VEvent ev)) →
       members_of obj w' !! k = Some v) ∧
    (∀ k, k ∉ entries.*1 ∨ (∃ ev, members_of obj w !! k = Some (VEvent ev)) →
       members_of obj w' !! k = members_of obj w !! k) ∧
    (∀ ev, events w' !! ev =
       (λ ls, ls ++ handlers_for (members_of obj w) ev entries) <$> events w !! ev) ∧
    (∀ o, o ≠ obj → objects w' !! o = objects w !! o).
Proof.
  revert w. induction entries as [|[key v] rest IH]; intros w Hnd Hall.
  { exists w. repeat split; try done.
    - intros k v Hin. by apply elem_of_nil in Hin.
    - intros ev. cbn. destruct (events w !! ev); cbn; [|done].
      by rewrite app_nil_r. }
  cbn in Hnd. apply NoDup_cons in Hnd as [Hkey Hnd].
  apply Forall_cons in Hall as [[m Hk] Hall]. cbn in Hk.
  destruct (event_or_not m) as [[ev ->]|Hm].
  - rewrite (setOptions_loop_event _ _ _ _ _ _ Hk).
    destruct (IH (registered ev v w) Hnd Hall)
      as (w' & Hrun & Hc & Hset & Hkeep & Hev & Hobj).
    exists w'. rewrite members_of_registered in *.
    split; [done|]. split; [done|]. split; [|split; [|split]].
    + intros k' v' Hin Hne. apply elem_of_cons in Hin as [[= -> ->]|Hin].
      * by destruct (Hne ev).
      * by apply Hset.
    + intros k' [Hnot|Hevent]; apply Hkeep; [left|by right].
      intros Hin. apply Hnot. cbn. by right.
    + intros ev0. rewrite Hev. cbn [registered set_events events].
      cbn [handlers_for]. unfold is_event_member. rewrite Hk.
      rewrite lookup_alter.
      case_bool_decide as Heq; case_decide as Heq'; try congruence.
      subst. destruct (events w !! ev0); cbn; [|done].
      by rewrite <- app_assoc.
    + done.
  - rewrite (setOptions_loop_assign _ _ _ _ _ _ Hk Hm).
    assert (∀ k', k' ≠ key →
              members_of obj (assigned obj key v w) !! k' = members_of obj w !! k')
      as Hother.
    { intros k' Hne. rewrite members_of_assigned. by rewrite lookup_insert_ne. }
    assert (∀ k', k' ∈ rest.*1 → k' ≠ key) as Hrest.
    { intros k' Hin ->. by apply Hkey. }
    destruct (IH (assigned obj key v w) Hnd)
      as (w' & Hrun & Hc & Hset & Hkeep & Hev & Hobj).
    { eapply Forall_impl; [exact Hall|]. intros [k' v'] Hs. cbn in *.
      rewrite members_of_assigned.
      destruct (decide (key = k')) as [->|Hne].
      - rewrite lookup_insert_eq. eauto.
      - by rewrite lookup_insert_ne. }
    exists w'. split; [done|]. split; [done|]. split; [|split; [|split]].
    + intros k' v' Hin Hne. apply elem_of_cons in Hin as [[= -> ->]|Hin].
      * rewrite Hkeep by (by left). rewrite members_of_assigned.
        by rewrite lookup_insert_eq.
      * assert (k' ≠ key) as Hk'.
        { apply Hrest. apply list_elem_of_fmap. by exists (k', v'). }
        apply Hset; [done|]. intros ev0. rewrite Hother by done. apply Hne.
    + intros k' [Hnot|[ev0 Hevent]].
      * assert (k' ≠ key) as Hk' by (intros ->; apply Hnot; cbn; left).
        rewrite Hkeep, Hother; [done|done|]. left. intros Hin. apply Hnot.
        cbn. by right.
      * assert (k' ≠ key) as Hk'.
        { intros ->. rewrite Hk in Hevent. injection Hevent as ->. by destruct (Hm ev0). }
        rewrite Hkeep, Hother; [done|done|]. right. exists ev0.
        by rewrite Hother.
    + intros ev0. rewrite Hev. cbn [assigned set_objects events].
      cbn [handlers_for]. unfold is_event_member. rewrite Hk.
      assert (match m with VEvent ev' => bool_decide (ev' = ev0) | _ => false end
              = false) as ->.
      { destruct m; try done. by destruct (Hm l). }
      f_equal. rewrite (handlers_for_ext _ (members_of obj w)); [done|].
      intros k' Hin. apply Hother. by apply Hrest.
    + intros o Ho. rewrite Hobj by done. cbn. by rewrite lookup_insert_ne.
Qed.

(** A call that meets only members of [obj] returns, with the same members
    defined (it neither adds nor removes a key). *)
Lemma setOptions_loop_returns obj entries w :
  Forall (λ kv, is_Some (members_of obj w !! kv.1)) entries →
  ∃ w', setOptions_loop obj entries w = (Normal tt, w') ∧
        console w' = console w ∧
        ∀ k, is_Some (members_of obj w' !! k) ↔ is_Some (members_of obj w !! k).
Proof.
  revert w. induction entries as [|[key v] rest IH]; intros w Hall.
  { by exists w. }
  apply Forall_cons in Hall as [[m Hk] Hall]. cbn in Hk.
  destruct (event_or_not m) as [[ev ->]|Hm].
  - rewrite (setOptions_loop_event _ _ _ _ _ _ Hk).
    destruct (IH (registered ev v w) Hall) as (w' & Hrun & Hc & Hdom).
    by exists w'.
  - rewrite (setOptions_loop_assign _ _ _ _ _ _ Hk Hm).
    assert (∀ k, is_Some (members_of obj (assigned obj key v w) !! k)
                 ↔ is_Some (members_of obj w !! k)) as Hsame.
    { intros k. rewrite members_of_assigned.
      destruct (decide (key = k)) as [<-|Hne].
      - rewrite lookup_insert_eq, Hk. split; eauto.
      - by rewrite lookup_insert_ne. }
    destruct (IH (assigned obj key v w)) as (w' & Hrun & Hc & Hdom).
    { eapply Forall_impl; [exact Hall|]. intros kv Hs. by apply Hsame. }
    exists w'. split; [done|]. split; [done|].
    intros k. by rewrite Hdom, Hsame.
Qed.

(** The first key that is not a member of [obj] stops the call; what the
    keys before it did stays done. *)
Lemma setOptions_loop_stops obj pre key v post w :
  Forall (λ kv, is_Some (members_of obj w !! kv.1)) pre →
  members_of obj w !! key = None →
  ∃ w1, setOptions_loop obj pre w = (Normal tt, w1) ∧
        setOptions_loop obj (pre ++ (key, v) :: post) w =
          (Throw (ThrownString (not_defined key)),
           reported (not_defined key) w1).
Proof.
  intros Hall Hk.
  destruct (setOptions_loop_returns obj pre w Hall) as (w1 & Hrun & _ & Hdom).
  exists w1. split; [done|].
  rewrite setOptions_loop_app, Hrun. apply setOptions_loop_missing.
  apply eq_None_not_Some. rewrite Hdom. by rewrite Hk; intros [? ?].
Qed.

(** Among the keys of [entries], either all are members of [m] or there is
    a first one that is not. *)
Lemma first_missing (m : gmap string value) (entries : list (string * value)) :
  Forall (λ kv, is_Some (m !! kv.1)) entries ∨
  ∃ pre key v post,
    entries = pre ++ (key, v) :: post ∧
    Forall (λ kv, is_Some (m !! kv.1)) pre ∧ m !! key = None.
Proof.
  induction entries as [|[key v] rest IH]; [by left|].
  destruct (m !! key) as [x|] eqn:Hk.
  - destruct IH as [Hall|(pre & key' & v' & post & -> & Hpre & Hmiss)].
    + left. constructor; [cbn; eauto | done].
    + right. exists ((key, v) :: pre), key', v', post.
      split; [done|]. split; [|done]. constructor; [cbn; eauto | done].
  - right. by exists [], key, v, rest.
Qed.

Lemma setOptions_loop_throws_iff obj entries w :
  (∃ t w', setOptions_loop obj entries w = (Throw t, w')) ↔
  ∃ key, key ∈ entries.*1 ∧ members_of obj w !! key = None.
Proof.
  destruct (first_missing (members_of obj w) entries)
    as [Hall|(pre & key & v & post & -> & Hpre & Hmiss)].
  - destruct (setOptions_loop_returns obj entries w Hall) as (w' & Hrun & _).
    split.
    + intros (t & w'' & Hthrow). congruence.
    + intros (key & Hin & Hmiss). apply list_elem_of_fmap in Hin as ([k v] & -> & Hin).
      rewrite Forall_forall in Hall. apply Hall in Hin. cbn in *.
      rewrite Hmiss in Hin. by destruct Hin.
  - destruct (setOptions_loop_stops obj pre key v post w Hpre Hmiss)
      as (w1 & _ & Hthrow).
    split; [|by eauto]. intros _. exists key. split; [|done].
    rewrite fmap_app. apply elem_of_app. right. cbn. left.
Qed.

(** What the two updates do to the target. *)
Lemma assigned_spec obj key v w :
  members_of obj (assigned obj key v w) !! key = Some v ∧
  (∀ k, k ≠ key →
     members_of obj (assigned obj key v w) !! k = members_of obj w !! k) ∧
  events (assigned obj key v w) = events w ∧
  console (assigned obj key v w) = console w.
Proof.
  rewrite members_of_assigned, lookup_insert_eq. repeat split.
  intros k Hk. by rewrite lookup_insert_ne.
Qed.

Lemma registered_spec obj ev handler w :
  events (registered ev handler w) !! ev =
    (λ ls, ls ++ [handler]) <$> events w !! ev ∧
  (∀ ev', ev' ≠ ev → events (registered ev handler w) !! ev' = events w !! ev') ∧
  members_of obj (registered ev handler w) = members_of obj w ∧
  console (registered ev handler w) = console w.
Proof.
  cbn. rewrite lookup_alter_eq. repeat split.
  intros ev' Hne. by rewrite lookup_alter_ne.
Qed.

(** C2: [setOptions obj options] visits the keys of [options] in turn.  At
    each key: if the key is not a member of [obj] the call throws (the
    assertion fails, its message on the console); if the member of [obj] at
    the key is an [Event], the value is registered with [addEventListener],
    and the loop goes on; otherwise the value is assigned to [obj[key]], and
    the loop goes on.  The call as a whole throws exactly when some key is
    not a member of [obj]; when every key is a member, it returns with each
    value assigned or registered.  In particular
    [setOptions(target, {missingProp: 1})] throws when [missingProp] is not a
    member of [target]. *)
Theorem setOptions_spec (obj : nat) (entries : list (string * value)) (w : world) :
  (∀ key v rest, entries = (key, v) :: rest →
     match members_of obj w !! key with
     | None =>
         setOptions obj (OObject entries) w =
           (Throw (ThrownString (not_defined key)), reported (not_defined key) w)
     | Some (VEvent ev) =>
         setOptions obj (OObject entries) w =
           setOptions obj (OObject rest) (registered ev v w)
     | Some _ =>
         setOptions obj (OObject entries) w =
           setOptions obj (OObject rest) (assigned obj key v w)
     end) ∧
  (entries = [] → setOptions obj (OObject entries) w = (Normal tt, w)) ∧
  ((∃ t w', setOptions obj (OObject entries) w = (Throw t, w')) ↔
   (∃ key, key ∈ entries.*1 ∧ members_of obj w !! key = None)) ∧
  (NoDup entries.*1 →
   Forall (λ kv, is_Some (members_of obj w !! kv.1)) entries →
   ∃ w',
     setOptions obj (OObject entries) w = (Normal tt, w') ∧
     console w' = console w ∧
     (∀ k v, (k, v) ∈ entries →
        (∀ ev, members_of obj w !! k ≠ Some (VEvent ev)) →
        members_of obj w' !! k = Some v) ∧
     (∀ k, k ∉ entries.*1 ∨ (∃ ev, members_of obj w !! k = Some (VEvent ev)) →
        members_of obj w' !! k = members_of obj w !! k) ∧
     (∀ ev, events w' !! ev =
        (λ ls, ls ++ handlers_for (members_of obj w) ev entries)
          <$> events w !! ev) ∧
     (∀ o, o ≠ obj → objects w' !! o = objects w !! o)) ∧
  (members_of obj w !! "missingProp" = None →
   setOptions obj (OObject [("missingProp", VNumber 1)]) w =
     (Throw (ThrownString "Property missingProp is not defined"),
      reported "Property missingProp is not defined" w)).
Proof.
  split; [|split; [|split; [|split]]].
  - intros key v rest ->. cbn [setOptions].
    destruct (members_of obj w !! key) as [m|] eqn:Hk.
    + destruct (event_or_not m) as [[ev ->]|Hm].
      * by apply setOptions_loop_event.
      * rewrite (setOptions_loop_assign _ _ _ _ _ _ Hk Hm).
        destruct m; try reflexivity. by destruct (Hm l).
    + by apply setOptions_loop_missing.
  - by intros ->.
  - apply setOptions_loop_throws_iff.
  - apply setOptions_loop_success.
  - intros Hk. by apply (setOptions_loop_missing obj "missingProp").
Qed.

(** A call on a sample target: an assignment, a registration, and the
    state they leave. *)
Example setOptions_sample :
  ∃ w',
    setOptions 0 (OObject [("name", VString "new"); ("tick", VFunction 1)])
               sample_world = (Normal tt, w') ∧
    members_of 0 w' !! "name" = Some (VString "new") ∧
    members_of 0 w' !! "tick" = Some (VEvent 7) ∧
    events w' !! 7 = Some [VFunction 1] ∧
    console w' = [].
Proof.
  eexists. split; [vm_compute; reflexivity|].
  repeat split; vm_compute; reflexivity.
Qed.

(** C9: with [options] null or undefined, [setOptions] returns normally and
    leaves the world, hence every member of [obj], as it was. *)
Theorem setOptions_nothing (obj : nat) (w : world) :
  setOptions obj ONull w = (Normal tt, w) ∧
  setOptions obj OUndefined w = (Normal tt, w).
Proof. split; reflexivity. Qed.

(** C10: when the assertion fails at a key, the keys before it have been
    applied and stay applied: the world in which the call throws is the one
    that applying the keys before leaves, with one line more on the console.
    So the values before the key are assigned and the handlers before it
    are registered, and the target is not put back as it was. *)
Theorem setOptions_not_atomic (obj : nat) (pre post : list (string * value))
    (key : string) (v : value) (w : world) :
  Forall (λ kv, is_Some (members_of obj w !! kv.1)) pre →
  members_of obj w !! key = None →
  ∃ w1,
    setOptions obj (OObject pre) w = (Normal tt, w1) ∧
    setOptions obj (OObject (pre ++ (key, v) :: post)) w =
      (Throw (ThrownString (not_defined key)), reported (not_defined key) w1) ∧
    members_of obj (reported (not_defined key) w1) = members_of obj w1 ∧
    events (reported (not_defined key) w1) = events w1 ∧
    (NoDup pre.*1 →
       (∀ k' v', (k', v') ∈ pre →
          (∀ ev, members_of obj w !! k' ≠ Some (VEvent ev)) →
          members_of obj w1 !! k' = Some v') ∧
       (∀ ev, events w1 !! ev =
          (λ ls, ls ++ handlers_for (members_of obj w) ev pre)
            <$> events w !! ev)).
Proof.
  intros Hpre Hmiss.
  destruct (setOptions_loop_stops obj pre key v post w Hpre Hmiss)
    as (w1 & Hrun & Hthrow).
  exists w1. split; [done|]. split; [done|]. split; [done|]. split; [done|].
  intros Hnd.
  destruct (setOptions_loop_success obj pre w Hnd Hpre)
    as (w' & Hrun' & _ & Hset & _ & Hev & _).
  cbn [setOptions] in *. rewrite Hrun in Hrun'. injection Hrun' as <-. done.
Qed.

(** On the sample target the failing call leaves the name changed and the
    handler registered. *)
Lemma setOptions_not_atomic_witness :
  ∃ w1,
    setOptions 0 (OObject [("name", VString "new"); ("tick", VFunction 1)])
               sample_world = (Normal tt, w1) ∧
    setOptions 0 (OObject ([("name", VString "new"); ("tick", VFunction 1)]
                           ++ ("speed", VBoolean true) :: []))
               sample_world =
      (Throw (ThrownString (not_defined "speed")),
       reported (not_defined "speed") w1) ∧
    members_of 0 (reported (not_defined "speed") w1) = members_of 0 w1 ∧
    events (reported (not_defined "speed") w1) = events w1 ∧
    (NoDup ["name"; "tick"] →
       (∀ k' v', (k', v') ∈ [("name", VString "new"); ("tick", VFunction 1)] →
          (∀ ev, members_of 0 sample_world !! k' ≠ Some (VEvent ev)) →
          members_of 0 w1 !! k' = Some v') ∧
       (∀ ev, events w1 !! ev =
          (λ ls, ls ++ handlers_for (members_of 0 sample_world) ev
                         [("name", VString "new"); ("tick", VFunction 1)])
            <$> events sample_world !! ev)).
Proof.
  apply (setOptions_not_atomic 0 [("name", VString "new"); ("tick", VFunction 1)]
           [] "speed" (VBoolean true) sample_world).
  - repeat constructor; eexists; vm_compute; reflexivity.
  - vm_compute. reflexivity.
Defined.

(** ** [format] *)

Section Format.
Context `{P : Platform}.

Lemma getNumberFormat_hit d nf w :
  _numberFormats w !! d = Some nf → _getNumberFormat d w = (Normal nf, w).
Proof. intros H. unfold _getNumberFormat. run_M. by rewrite H. Qed.

Lemma getNumberFormat_miss d w :
  _numberFormats w !! d = None → d ≤ fraction_digits_limit →
  let nf := mkNumberFormat (nf_created w) navigator_language true d d in
  _getNumberFormat d w =
    (Normal nf, set_numberFormats <[d := nf]> (set_nf_created S w)).
Proof.
  intros H Hd nf. unfold _getNumberFormat, new_NumberFormat. run_M. rewrite H.
  apply Nat.leb_le in Hd as Hd'. rewrite Hd', Nat.leb_refl. reflexivity.
Qed.

Lemma getNumberFormat_refused d w :
  _numberFormats w !! d = None → fraction_digits_limit < d →
  _getNumberFormat d w = (Throw (ThrownError "RangeError"), w).
Proof.
  intros H Hd. unfold _getNumberFormat, new_NumberFormat. run_M. rewrite H.
  apply Nat.leb_gt in Hd as Hd'. rewrite Hd'. reflexivity.
Qed.

(** A call keeps the invariant and every formatter already cached. *)
Lemma getNumberFormat_preserves d w :
  cache_wf w →
  cache_wf (_getNumberFormat d w).2 ∧
  (∀ d' nf', _numberFormats w !! d' = Some nf' →
     _numberFormats (_getNumberFormat d w).2 !! d' = Some nf').
Proof.
  intros (Hwf & Hinj & Hsize).
  destruct (_numberFormats w !! d) as [nf|] eqn:Hd.
  { rewrite (getNumberFormat_hit _ _ _ Hd). by split. }
  destruct (le_lt_dec d fraction_digits_limit) as [Hle|Hgt].
  2: { rewrite (getNumberFormat_refused _ _ Hd Hgt). by split. }
  rewrite (getNumberFormat_miss _ _ Hd Hle).
  unfold cache_wf. cbn [snd set_numberFormats set_nf_created _numberFormats nf_created].
  split; [split; [|split]|].
  - intros d' nf'. destruct (decide (d = d')) as [<-|Hne].
    + rewrite lookup_insert_eq. intros [= <-]. cbn. repeat split; lia.
    + rewrite lookup_insert_ne by done. intros H'.
      destruct (Hwf _ _ H') as (? & ? & ? & ? & ? & ?). repeat split; try done. lia.
  - intros d1 d2 nf1 nf2.
    destruct (decide (d = d1)) as [<-|Hne1], (decide (d = d2)) as [<-|Hne2];
      rewrite ?lookup_insert_eq, ?lookup_insert_ne by done; try done.
    + intros [= <-] H2 Hid. cbn in Hid.
      destruct (Hwf _ _ H2) as (_ & _ & _ & _ & _ & Hlt). lia.
    + intros H1 [= <-] Hid. cbn in Hid.
      destruct (Hwf _ _ H1) as (_ & _ & _ & _ & _ & Hlt). lia.
    + apply Hinj.
  - rewrite map_size_insert_None by done. by rewrite Hsize.
  - intros d' nf' H'. rewrite lookup_insert_ne; [done|]. intros <-. congruence.
Qed.

Lemma format_unfold v d w :
  format v (Some d) w =
    match _getNumberFormat d w with
    | (Normal nf, w') => (Normal (NumberFormat_format nf v), w')
    | (Throw t, w') => (Throw t, w')
    end.
Proof. reflexivity. Qed.

Lemma format_world v d w : (format v d w).2 = (_getNumberFormat (default 2 d) w).2.
Proof.
  unfold format. run_M. by destruct (_getNumberFormat (default 2 d) w) as [[nf|t] w'].
Qed.

Lemma exec_formats_preserves calls w :
  cache_wf w →
  cache_wf (exec_formats calls w) ∧
  (∀ d' nf', _numberFormats w !! d' = Some nf' →
     _numberFormats (exec_formats calls w) !! d' = Some nf').
Proof.
  revert w. induction calls as [|[v d] rest IH]; intros w Hwf; [done|].
  cbn [exec_formats]. rewrite format_world.
  destruct (getNumberFormat_preserves (default 2 d) w Hwf) as [Hwf' Hkeep].
  destruct (IH _ Hwf') as [Hwf'' Hkeep'']. split; [done|].
  intros d' nf' H'. by apply Hkeep'', Hkeep.
Qed.

(** The invariant is about the cache and the count of formatters only, and
    the other helpers touch neither. *)
Lemma cache_wf_frame (w w' : world) :
  _numberFormats w' = _numberFormats w → nf_created w' = nf_created w →
  cache_wf w → cache_wf w'.
Proof. unfold cache_wf. by intros -> ->. Qed.

Lemma assert_keeps_cache (condition : bool) (msg : string) (w : world) :
  cache_wf w → cache_wf (assert condition msg w).2.
Proof. by destruct condition. Qed.

Lemma setOptions_keeps_cache (obj : nat) (opts : options) (w : world) :
  cache_wf w → cache_wf (setOptions obj opts w).2.
Proof.
  destruct opts as [| |entries]; try done. cbn [setOptions].
  revert w. induction entries as [|[key v] rest IH]; intros w Hwf; [done|].
  destruct (members_of obj w !! key) as [m|] eqn:Hk.
  - destruct (event_or_not m) as [[ev ->]|Hm].
    + rewrite (setOptions_loop_event _ _ _ _ _ _ Hk). by apply IH.
    + rewrite (setOptions_loop_assign _ _ _ _ _ _ Hk Hm). by apply IH.
  - by rewrite (setOptions_loop_missing _ _ _ _ _ Hk).
Qed.

Lemma getElement_keeps_cache (selector : value) (w : world) :
  cache_wf w → cache_wf (getElement selector w).2.
Proof.
  intros Hwf. unfold getElement, querySelector. run_M.
  destruct selector; try done.
  destruct (valid_selector s); [|done]. cbn. by destruct (List.find _ _).
Qed.

Lemma initial_cache_wf : cache_wf initial_world.
Proof.
  split; [|split]; cbn; [intros d nf | intros d1 d2 nf1 nf2 | done];
    by rewrite lookup_empty.
Qed.

(** A count the platform refuses: the constructor throws, nothing is
    cached. *)
Lemma format_refused (w : world) (d : nat) (v : float) :
  cache_wf w → fraction_digits_limit < d →
  format v (Some d) w = (Throw (ThrownError "RangeError"), w).
Proof.
  intros Hwf Hd. rewrite format_unfold.
  destruct (_numberFormats w !! d) as [nf0|] eqn:Hlook.
  - destruct (proj1 Hwf _ _ Hlook) as (_ & _ & _ & _ & Hle & _). lia.
  - by rewrite (getNumberFormat_refused _ _ Hlook Hd).
Qed.

(** A count the platform accepts: the first call and a later one. *)
Lemma format_accepted (w : world) (d : nat) (v1 v2 : float)
    (between : list (float * option nat)) :
  cache_wf w → d ≤ fraction_digits_limit →
  ∃ nf w1,
    format v1 (Some d) w = (Normal (NumberFormat_format nf v1), w1) ∧
    match _numberFormats w !! d with
    | Some nf0 => nf = nf0 ∧ w1 = w
    | None =>
        nf_id nf = nf_created w ∧ nf_created w1 = S (nf_created w) ∧
        _numberFormats w1 = <[d := nf]> (_numberFormats w)
    end ∧
    _numberFormats w1 !! d = Some nf ∧
    minimumFractionDigits nf = d ∧ maximumFractionDigits nf = d ∧
    let w2 := exec_formats between w1 in
    format v2 (Some d) w2 = (Normal (NumberFormat_format nf v2), w2) ∧
    (∀ d' nf', _numberFormats w1 !! d' = Some nf' →
       _numberFormats w2 !! d' = Some nf') ∧
    cache_wf w2.
Proof.
  intros Hwf Hd.
  assert (∃ nf w1,
            _getNumberFormat d w = (Normal nf, w1) ∧
            _numberFormats w1 !! d = Some nf ∧
            match _numberFormats w !! d with
            | Some nf0 => nf = nf0 ∧ w1 = w
            | None =>
                nf_id nf = nf_created w ∧ nf_created w1 = S (nf_created w) ∧
                _numberFormats w1 = <[d := nf]> (_numberFormats w)
            end) as (nf & w1 & Hget & Hin & Hlazy).
  { destruct (_numberFormats w !! d) as [nf0|] eqn:Hlook.
    - exists nf0, w. by rewrite (getNumberFormat_hit _ _ _ Hlook).
    - eexists _, _. rewrite (getNumberFormat_miss _ _ Hlook Hd).
      split; [reflexivity|]. cbn. by rewrite lookup_insert_eq. }
  assert (cache_wf w1) as Hwf1.
  { pose proof (getNumberFormat_preserves d w Hwf) as [H1 _].
    by rewrite Hget in H1. }
  destruct (exec_formats_preserves between w1 Hwf1) as [Hwf2 Hkeep].
  pose proof (proj1 Hwf1 _ _ Hin) as (Hmin & Hmax & _).
  exists nf, w1. split.
  { by rewrite format_unfold, Hget. }
  split; [done|]. split; [done|]. split; [done|]. split; [done|]. cbn zeta.
  split.
  { by rewrite format_unfold, (getNumberFormat_hit _ _ _ (Hkeep _ _ Hin)). }
  split; done.
Qed.

(** C3: two calls of [format] with the same decimal count [d], whatever
    calls of [format] come between them, render with one and the same
    formatter [nf], which the cache holds under [d] from the first call on:
    the second call neither creates nor replaces anything.  The first call
    takes [nf] from the cache when it is there and creates it only when it
    is not (lazily); no call ever replaces or removes a cached formatter; as
    many formatters have been constructed as decimal counts are cached.
    Each result is the rendering of the value by [nf], which has [d] for
    its minimum and maximum fraction digits: where [Intl.NumberFormat]
    honours them, a finite value is shown with exactly [d] fraction digits.
    Nothing of the kind holds of [NaN] and the infinities, which a formatter
    writes by name.  The calls return for every [d] the platform's
    constructor accepts; for a [d] it refuses [format] throws the platform's
    error, the cache unchanged, and there is no result. *)
Theorem format_cached (w : world) (d : nat) (v1 v2 : float)
    (between : list (float * option nat)) :
  cache_wf w →
  (∀ s1 w1 s2 w2,
     format v1 (Some d) w = (Normal s1, w1) →
     format v2 (Some d) (exec_formats between w1) = (Normal s2, w2) →
     ∃ nf,
       s1 = NumberFormat_format nf v1 ∧ s2 = NumberFormat_format nf v2 ∧
       _numberFormats w1 !! d = Some nf ∧ _numberFormats w2 !! d = Some nf ∧
       w2 = exec_formats between w1 ∧
       minimumFractionDigits nf = d ∧ maximumFractionDigits nf = d ∧
       (renders_fixed_digits P →
        (is_finite v1 = true → fraction_digits decimal_separator s1 = d) ∧
        (is_finite v2 = true → fraction_digits decimal_separator s2 = d))) ∧
  (d ≤ fraction_digits_limit →
   ∃ nf w1,
     format v1 (Some d) w = (Normal (NumberFormat_format nf v1), w1) ∧
     match _numberFormats w !! d with
     | Some nf0 => nf = nf0 ∧ w1 = w
     | None =>
         nf_id nf = nf_created w ∧ nf_created w1 = S (nf_created w) ∧
         _numberFormats w1 = <[d := nf]> (_numberFormats w)
     end ∧
     minimumFractionDigits nf = d ∧ maximumFractionDigits nf = d ∧
     let w2 := exec_formats between w1 in
     format v2 (Some d) w2 = (Normal (NumberFormat_format nf v2), w2) ∧
     (∀ d' nf', _numberFormats w1 !! d' = Some nf' →
        _numberFormats w2 !! d' = Some nf') ∧
     size (_numberFormats w2) = nf_created w2 ∧
     (∀ d1 d2 nf1 nf2,
        _numberFormats w2 !! d1 = Some nf1 → _numberFormats w2 !! d2 = Some nf2 →
        nf_id nf1 = nf_id nf2 → d1 = d2)) ∧
  (fraction_digits_limit < d →
   format v1 (Some d) w = (Throw (ThrownError "RangeError"), w)) ∧
  format v1 None w = format v1 (Some 2) w.
Proof.
  intros Hwf. split; [|split; [|split; [|reflexivity]]].
  - intros s1 w1 s2 w2 H1 H2.
    destruct (le_lt_dec d fraction_digits_limit) as [Hd|Hd].
    2: { rewrite (format_refused w d v1 Hwf Hd) in H1. discriminate H1. }
    destruct (format_accepted w d v1 v2 between Hwf Hd)
      as (nf & w1' & H1' & _ & Hin & Hmin & Hmax & H2' & Hkeep & _).
    rewrite H1' in H1. injection H1 as <- <-. cbn zeta in H2'.
    rewrite H2' in H2. injection H2 as <- <-.
    exists nf. repeat split; try done; try (by apply Hkeep).
    all: intros Hfin; rewrite H by (done || congruence); done.
  - intros Hd.
    destruct (format_accepted w d v1 v2 between Hwf Hd)
      as (nf & w1 & H1 & Hlazy & _ & Hmin & Hmax & H2 & Hkeep & Hwf2).
    exists nf, w1. cbn zeta in *. destruct Hwf2 as (_ & Hinj & Hsize).
    repeat split; done.
  - by apply format_refused.
Qed.

End Format.

(** ** The sample platform keeps the platform's promise *)

Lemma is_digit_digit (n : Z) : is_digit (digit n) = true.
Proof.
  unfold is_digit, digit.
  assert (Z.to_nat (n mod 10) < 10) as Hlt.
  { pose proof (Z.mod_pos_bound n 10). lia. }
  rewrite nat_ascii_embedding by lia.
  apply andb_true_intro. split; apply Nat.leb_le; lia.
Qed.

Lemma digit_not_sep (c : ascii) :
  is_digit c = true ∨ c = ","%char ∨ c = "-"%char → Ascii.eqb c "." = false.
Proof.
  intros H. destruct (Ascii.eqb_spec c ".") as [->|]; [|done].
  destruct H as [H|[H|H]]; discriminate H.
Qed.

Lemma leading_digits_app (l1 l2 : list ascii) :
  Forall (λ c, is_digit c = true) l1 →
  leading_digits (l1 ++ l2) = length l1 + leading_digits l2.
Proof.
  induction 1 as [|c l1 Hc _ IH]; [done|]. cbn. by rewrite Hc, IH.
Qed.

Lemma digits_after_app (sep : ascii) (l1 l2 : list ascii) :
  Forall (λ c, Ascii.eqb c sep = false) l1 →
  digits_after sep (l1 ++ l2) = digits_after sep l2.
Proof.
  induction 1 as [|c l1 Hc _ IH]; [done|]. cbn. by rewrite Hc, IH.
Qed.

Lemma fixed_digits_spec (d : nat) (n : Z) :
  Forall (λ c, is_digit c = true) (fixed_digits d n) ∧
  length (fixed_digits d n) = d.
Proof.
  revert n. induction d as [|d IH]; intros n; [done|].
  destruct (IH (n / 10)%Z) as [Hall Hlen]. cbn. split.
  - apply Forall_app. split; [done|]. constructor; [apply is_digit_digit|done].
  - rewrite length_app, Hlen. cbn. lia.
Qed.

Lemma int_digits_spec (fuel : nat) (n : Z) :
  Forall (λ c, is_digit c = true) (int_digits fuel n).
Proof.
  revert n. induction fuel as [|fuel IH]; intros n; [done|]. cbn.
  destruct (n <? 10)%Z.
  - constructor; [apply is_digit_digit|done].
  - apply Forall_app. split; [apply IH|].
    constructor; [apply is_digit_digit|done].
Qed.

Lemma group_rev_spec (k : nat) (l : list ascii) :
  Forall (λ c, is_digit c = true) l →
  Forall (λ c, Ascii.eqb c "." = false) (group_rev k l).
Proof.
  intros H. revert k. induction H as [|c l Hc _ IH]; intros k; [done|]. cbn.
  destruct (k =? 3); repeat constructor; try apply IH;
    apply digit_not_sep; auto.
Qed.

Lemma int_text_spec (grouping : bool) (n : Z) :
  Forall (λ c, Ascii.eqb c "." = false) (int_text grouping n).
Proof.
  unfold int_text. pose proof (int_digits_spec (S (Z.to_nat (Z.log2 n))) n) as H.
  destruct grouping.
  - apply Forall_rev, group_rev_spec, Forall_rev, H.
  - eapply Forall_impl; [exact H|]. intros c Hc. apply digit_not_sep. auto.
Qed.

Lemma fixed_text_digits (nf : NumberFormat) (negative : bool) (n : Z) :
  fraction_digits "." (fixed_text nf negative n) = maximumFractionDigits nf.
Proof.
  unfold fraction_digits, fixed_text.
  rewrite list_ascii_of_string_of_list_ascii.
  rewrite digits_after_app.
  2: { destruct negative; repeat constructor. }
  rewrite digits_after_app by apply int_text_spec.
  destruct (maximumFractionDigits nf =? 0) eqn:Hd.
  - apply Nat.eqb_eq in Hd. by rewrite Hd.
  - cbn [digits_after]. cbn [Ascii.eqb Bool.eqb].
    destruct (fixed_digits_spec (maximumFractionDigits nf)
                (n mod 10 ^ Z.of_nat (maximumFractionDigits nf))) as [Hall Hlen].
    rewrite <- (app_nil_r (fixed_digits _ _)), leading_digits_app by done.
    rewrite Hlen. cbn. lia.
Qed.

Lemma sample_renders_fixed_digits : renders_fixed_digits sample_platform.
Proof.
  intros nf v Hfin Heq. rewrite Heq.
  cbn [NumberFormat_format decimal_separator sample_platform].
  apply is_finite_spec in Hfin. unfold sample_render.
  destruct (Prim2SF v); try done; apply fixed_text_digits.
Qed.

(** The sample formatter on the example of the specification, on a tie, on
    a negative zero and on the values that are not finite. *)
Example sample_render_example :
  let nf := mkNumberFormat 0 "en-US" true 2 2 in
  sample_render nf 1234.5 = "1,234.50" ∧
  sample_render nf 0.125 = "0.13" ∧
  sample_render nf (-1234567.875) = "-1,234,567.88" ∧
  sample_render nf (-0) = "-0.00" ∧
  sample_render nf nan = "NaN" ∧
  sample_render nf infinity = "∞".
Proof. vm_compute. done. Qed.

(** The example of the specification, from the fresh module: the result,
    the formatter created and cached. *)
Example format_example :
  @format sample_platform 1234.5 (Some 2) initial_world =
    (Normal "1,234.50",
     mkWorld [] ∅ ∅ {[ 2 := mkNumberFormat 0 "en-US" true 2 2 ]} 1 []).
Proof. vm_compute. reflexivity. Qed.

(** The value [NaN] formatted with two decimals, from the fresh module: the
    result is the name, which shows no fraction digit. *)
Lemma format_NaN_no_digits :
  (@format sample_platform nan (Some 2) initial_world).1 = Normal "NaN" ∧
  is_nan nan = true ∧
  fraction_digits "." "NaN" = 0 ∧
  (fraction_digits "." "NaN" =? 2) = false.
Proof. vm_compute. done. Qed.

(** Two calls with two decimals from the fresh module, calls with other
    counts (one of them refused) in between: one formatter serves both. *)
Lemma format_cached_witness :
  ∃ nf w1,
    @format sample_platform 1234.5 (Some 2) initial_world =
      (Normal (sample_render nf 1234.5), w1) ∧
    nf_id nf = 0 ∧
    (let w2 := @exec_formats sample_platform sample_calls w1 in
     @format sample_platform 7 (Some 2) w2 = (Normal (sample_render nf 7), w2)) ∧
    fraction_digits "." (sample_render nf 1234.5) = 2 ∧
    fraction_digits "." (sample_render nf 7) = 2.
Proof.
  destruct (@format_cached sample_platform initial_world 2 1234.5 7
              sample_calls initial_cache_wf)
    as (Hsame & Hreturns & _).
  destruct Hreturns as (nf & w1 & H1 & Hlazy & _ & _ & H2 & _).
  { cbn. lia. }
  destruct (Hsame _ _ _ _ H1 H2) as (nf' & _ & _ & _ & _ & _ & _ & _ & Hd).
  destruct (Hd sample_renders_fixed_digits) as [Hd1 Hd2].
  exists nf, w1. cbn in Hlazy. destruct Hlazy as (Hid & _).
  repeat split; try done; [by apply Hd1 | by apply Hd2].
Defined.

(** ** [getElement] *)

Section GetElement.
Context `{P : Platform}.

(** [List.find] returns the first element that passes the test. *)
Lemma find_first {A} (f : A → bool) (pre post : list A) (x : A) :
  Forall (λ y, f y = false) pre → f x = true →
  List.find f (pre ++ x :: post) = Some x.
Proof.
  induction 1 as [|y pre Hy _ IH]; intros Hx; cbn.
  - by rewrite Hx.
  - rewrite Hy. by apply IH.
Qed.

Lemma find_none {A} (f : A → bool) (l : list A) :
  Forall (λ y, f y = false) l → List.find f l = None.
Proof. induction 1 as [|y l Hy _ IH]; cbn; [done|]. by rewrite Hy. Qed.

Lemma getElement_string (s : string) (w : world) :
  valid_selector s = true →
  getElement (VString s) w =
    match List.find (λ e, Element_matches e s) (document w) with
    | Some e => (Normal (VElement e), w)
    | None => (Throw (ThrownString ("Element not found:" +:+ s)),
               reported ("Element not found:" +:+ s) w)
    end.
Proof.
  intros Hs. unfold getElement, querySelector. run_M. rewrite Hs.
  by destruct (List.find _ _).
Qed.

(** C8: for a string, [getElement] returns the first element of the
    document that matches it; for any other value it returns the value
    itself; it throws through [assert], the message on the console, whenever
    the value so resolved is not an [Element], in particular when no element
    matches the string; so whatever it returns is an [Element].  (A string
    that is no selector at all makes [document.querySelector] throw before
    the assertion is reached.) *)
Theorem getElement_spec (selector : value) (w : world) :
  (∀ s pre e post,
     selector = VString s → valid_selector s = true →
     document w = pre ++ e :: post →
     Forall (λ e', Element_matches e' s = false) pre →
     Element_matches e s = true →
     getElement selector w = (Normal (VElement e), w)) ∧
  (∀ s,
     selector = VString s → valid_selector s = true →
     Forall (λ e', Element_matches e' s = false) (document w) →
     getElement selector w =
       (Throw (ThrownString ("Element not found:" +:+ s)),
        reported ("Element not found:" +:+ s) w)) ∧
  (∀ e, selector = VElement e → getElement selector w = (Normal selector, w)) ∧
  ((∀ s, selector ≠ VString s) → (∀ e, selector ≠ VElement e) →
   getElement selector w =
     (Throw (ThrownString ("Element not found:" +:+ ToString selector)),
      reported ("Element not found:" +:+ ToString selector) w)) ∧
  (∀ r w', getElement selector w = (Normal r, w') →
     instanceof_Element r = true ∧ w' = w) ∧
  (∀ s, selector = VString s → valid_selector s = false →
     getElement selector w = (Throw (ThrownError "SyntaxError"), w)).
Proof.
  split; [|split; [|split; [|split; [|split]]]].
  - intros s pre e post -> Hs Hdoc Hpre He.
    rewrite getElement_string, Hdoc by done.
    by rewrite (find_first (λ e, Element_matches e s)).
  - intros s -> Hs Hnone. rewrite getElement_string by done.
    by rewrite (find_none (λ e, Element_matches e s)).
  - by intros e ->.
  - intros Hs He. destruct selector; try reflexivity.
    + by destruct (Hs s).
    + by destruct (He e).
  - intros r w'. unfold getElement, querySelector. run_M.
    destruct selector; cbn; try discriminate; try (by intros [= <- <-]).
    destruct (valid_selector s); cbn; [|discriminate].
    destruct (List.find _ _); cbn; [|discriminate]. by intros [= <- <-].
  - intros s -> Hs. unfold getElement, querySelector. run_M. by rewrite Hs.
Qed.

End GetElement.

(** In the sample document [".bar"] finds element 4, the first of the two
    that match; ["#none"] finds nothing; a jQuery-like object is refused. *)
Example getElement_sample :
  @getElement sample_platform (VString ".bar") sample_world =
    (Normal (VElement 4), sample_world) ∧
  @getElement sample_platform (VString "#none") sample_world =
    (Throw (ThrownString "Element not found:#none"),
     reported "Element not found:#none" sample_world) ∧
  @getElement sample_platform (VObject 9) sample_world =
    (Throw (ThrownString "Element not found:[object Object]"),
     reported "Element not found:[object Object]" sample_world) ∧
  @getElement sample_platform (VString "9lives") sample_world =
    (Throw (ThrownError "SyntaxError"), sample_world).
Proof. repeat split; vm_compute; reflexivity. Qed.

(** * Part III: further properties *)

(** ** [clamp], bounds in order and bounds crossed *)

Section ClampMore.
#[local] Open Scope R_scope.

(** Case analysis on the comparisons that [clamp] makes. *)
Ltac clamp_cases :=
  unfold clamp in *;
  repeat match goal with
         | |- context [Rlt_dec ?a ?b] => destruct (Rlt_dec a b)
         | |- context [Rgt_dec ?a ?b] => destruct (Rgt_dec a b)
         | H : context [Rlt_dec ?a ?b] |- _ => destruct (Rlt_dec a b)
         | H : context [Rgt_dec ?a ?b] |- _ => destruct (Rgt_dec a b)
         end.

(** X2: when the bounds are in order, clamping is idempotent, and it is
    monotone in the value. *)
Theorem clamp_idempotent_monotone (v1 v2 : R) (min max : option R) :
  (∀ lo hi, min = Some lo → max = Some hi → lo <= hi) →
  clamp (clamp v1 min max) min max = clamp v1 min max ∧
  (v1 <= v2 → clamp v1 min max <= clamp v2 min max).
Proof.
  intros Hord. destruct min as [lo|], max as [hi|];
    try specialize (Hord _ _ eq_refl eq_refl);
    split; try intros Hle; clamp_cases; lra.
Qed.

Lemma clamp_idempotent_monotone_witness :
  clamp (clamp 15 (Some 0) (Some 10)) (Some 0) (Some 10) =
    clamp 15 (Some 0) (Some 10) ∧
  (15 <= 20 → clamp 15 (Some 0) (Some 10) <= clamp 20 (Some 0) (Some 10)).
Proof.
  apply (clamp_idempotent_monotone 15 20 (Some 0) (Some 10)).
  intros lo hi [= <-] [= <-]. lra.
Defined.



End ClampMore.

(** ** [Point.distance]: when it is a distance *)

Section DistanceMore.
Import Point.
#[local] Open Scope R_scope.

(** The [dz] of the source, by the truthiness of the two [z]. *)
Lemma dz_cases (z1 z2 : jsnum) :
  js_or (js_or z1 (js_sub (JNum 0) z2)) (JNum 0) =
    match z1, z2 with
    | JNum a, JNum b =>
        if truthy (JNum a) then JNum a
        else if truthy (JNum b) then JNum (0 - b) else JNum 0
    | JNum a, _ => if truthy (JNum a) then JNum a else JNum 0
    | _, JNum b => if truthy (JNum b) then JNum (0 - b) else JNum 0
    | _, _ => JNum 0
    end.
Proof.
  unfold js_or. destruct z1 as [| |a], z2 as [| |b]; cbn [truthy js_sub js_arith];
    repeat match goal with
           | |- context [Req_dec_T ?u ?v] => destruct (Req_dec_T u v)
           end;
    cbn [truthy]; try reflexivity;
    repeat match goal with
           | |- context [Req_dec_T ?u ?v] => destruct (Req_dec_T u v)
           end;
    try reflexivity; try (exfalso; lra);
    try solve [ exfalso; match goal with n : _ ≠ _ |- _ => apply n; lra end ].
Qed.



End DistanceMore.

(** ** [Point.angle] and [clone] *)

Section PointMore.
Import Point.
#[local] Open Scope R_scope.


(** X13: [clone] keeps [x] and [y] and reads a missing [z] as 0; it is the
    identity on every point that has a [z], in particular on what [new] and
    [clone] build; and a point and its clone are at the same distance and
    angle from any other point. *)
Theorem clone_spec (p q : IPoint) (radians : option bool) :
  x (clone p) = x p ∧ y (clone p) = y p ∧
  z (clone p) = match z p with JUndefined => JNum 0 | v => v end ∧
  (z p ≠ JUndefined → clone p = p) ∧
  clone (clone p) = clone p ∧
  (∀ a b c, clone (new a b c) = new a b c) ∧
  distance (clone p) q = distance p q ∧
  distance q (clone p) = distance q p ∧
  angle (clone p) q radians = angle p q radians ∧
  angle q (clone p) radians = angle q p radians.
Proof.
  split; [done|]. split; [done|]. split; [by destruct p as [? ? []]|].
  split; [by destruct p as [? ? []]|].
  split; [by destruct p as [? ? []]|].
  split; [by intros a b []|].
  split; [|split; [|split; reflexivity]].
  - unfold distance, clone, new. cbn [x y z].
    destruct (z p); try done. unfold js_or at 2 4. by rewrite truthy_zero.
  - unfold distance, clone, new. cbn [x y z]. rewrite !dz_cases.
    destruct (z p); try done. rewrite truthy_zero.
    destruct (z q) as [| |a]; try done; by destruct (truthy (JNum a)).
Qed.

End PointMore.

(** ** [clamp] in binary64 *)

Section DoubleClamp.
Import Double.
#[local] Open Scope float_scope.

(** X1: when the bounds are in order and none of the three numbers is
    [NaN], the result of [clamp] respects every bound that is given: it is
    at least [min] and at most [max].  A [NaN] value is returned as it is,
    within no bound. *)
Theorem clamp_in_range (value : float) (min max : option float) :
  (is_nan value = true → clamp value min max = value) ∧
  (is_nan value = false →
   (∀ lo, min = Some lo → is_nan lo = false) →
   (∀ hi, max = Some hi → is_nan hi = false) →
   (∀ lo hi, min = Some lo → max = Some hi → (lo <=? hi) = true) →
   (∀ lo, min = Some lo → (lo <=? clamp value min max) = true) ∧
   (∀ hi, max = Some hi → (clamp value min max <=? hi) = true)).
Proof.
  split.
  - intros Hn. unfold clamp.
    destruct min as [lo|], max as [hi|];
      rewrite ?(ltb_nan_l value), ?(ltb_nan_r _ value) by done; done.
  - intros Hv Hlo Hhi Hord. unfold clamp. split.
    + intros lo ->. specialize (Hlo _ eq_refl).
      destruct (value <? lo) eqn:H1; [by apply leb_refl|].
      apply ltb_false_leb in H1; try done.
      destruct max as [hi|]; [|done].
      destruct (hi <? value) eqn:H2; [by apply (Hord lo hi)|done].
    + intros hi ->. specialize (Hhi _ eq_refl).
      assert (((if hi <? value then hi else value) <=? hi) = true) as Habove.
      { destruct (hi <? value) eqn:H2; [by apply leb_refl|].
        by apply ltb_false_leb in H2. }
      destruct min as [lo|]; [|done].
      destruct (value <? lo) eqn:H1; [by apply (Hord lo hi)|done].
Qed.

(** [clamp] on values inside, below and above the range, and on [NaN]. *)
Example clamp_double_examples :
  clamp 5 (Some 0) (Some 10) = 5 ∧ clamp (-5) (Some 0) (Some 10) = 0 ∧
  clamp 15 (Some 0) (Some 10) = 10 ∧ clamp 15 (Some 0) None = 15 ∧
  clamp nan (Some 0) (Some 10) = nan ∧
  (0 <=? clamp nan (Some 0) (Some 10)) = false ∧
  (clamp nan (Some 0) (Some 10) <=? 10) = false.
Proof. vm_compute. done. Qed.

End DoubleClamp.

(** ** [Point] in binary64 *)

Section DoublePointMore.
Import Double Double.Point.
#[local] Open Scope float_scope.

Lemma truthy_zero_sub (n : float) :
  truthy (Some (0 - n)) = truthy (Some n).
Proof.
  unfold truthy. by destruct (zero_sub_class n) as [-> ->].
Qed.

(** The [z] term of [distance] is the difference of the two [z], an
    absent one read as 0, when one of them is falsy. *)
Lemma distance_dz (a b : option float) :
  truthy a = false ∨ truthy b = false →
  ToNumber (js_or (js_or a (Some (0 - ToNumber b))) (Some 0)) =
  ToNumber (js_or a (Some 0)) - ToNumber (js_or b (Some 0)).
Proof.
  intros H. unfold js_or. destruct (truthy a) eqn:Ha.
  - destruct H as [H|Hb]; [done|]. rewrite Ha, Hb.
    destruct a as [n|]; [|done]. cbn [ToNumber]. by rewrite sub_zero_r.
  - destruct b as [n|]; cbn [ToNumber]; [|by vm_compute].
    rewrite truthy_zero_sub. destruct (truthy (Some n)); reflexivity.
Qed.

(** X6: [Point.distance] is the Euclidean distance (an absent [z] read as
    0), to the last bit, whenever the [z] of one of the two points is
    absent, zero or [NaN].  It is not when both are 1: the distance of
    (0, 0, 1) to itself is computed as 1. *)
Theorem distance_euclidean_if (p1 p2 : IPoint) :
  (truthy (z p1) = false ∨ truthy (z p2) = false →
   distance p1 p2 = euclidean_distance p1 p2) ∧
  distance (mkPoint 0 0 (Some 1)) (mkPoint 0 0 (Some 1)) = 1 ∧
  euclidean_distance (mkPoint 0 0 (Some 1)) (mkPoint 0 0 (Some 1)) = 0.
Proof.
  split; [|by vm_compute].
  intros H. unfold distance, euclidean_distance.
  by rewrite (distance_dz _ _ H).
Qed.

(** X8: the [z] of an interpolated point is never absent: it is a number,
    and that number is [NaN] whenever a point has no [z], or has [NaN] for
    its [z], or [pct] is [NaN].  Two numeric [z] can give [NaN] too: from
    [-2^1023] to [2^1023] the difference overflows, and infinity times 0 is
    [NaN]. *)
Theorem interpolate_z_NaN (p1 p2 : IPoint) (pct : float) :
  (∃ n, z (interpolate p1 p2 pct) = Some n ∧
     (z p1 = None ∨ z p2 = None ∨ is_nan (ToNumber (z p1)) = true ∨
      is_nan (ToNumber (z p2)) = true ∨ is_nan pct = true →
      is_nan n = true)) ∧
  z (interpolate (mkPoint 0 0 (Some (-0x1p1023))) (mkPoint 0 0 (Some 0x1p1023)) 0) =
    Some nan.
Proof.
  split; [|by vm_compute].
  eexists. split; [reflexivity|]. cbn [z].
  intros [->|[->|[H|[H|H]]]]; cbn [ToNumber];
    try apply is_nan_eq in H; rewrite ?H;
    by rewrite ?add_nan_l, ?sub_nan_l, ?sub_nan_r, ?mul_nan_l, ?mul_nan_r,
               ?add_nan_r.
Qed.

End DoublePointMore.

(** ** [setOptions]: what it leaves alone, and how calls compose *)

Lemma target_frame_refl obj w : target_frame obj w w.
Proof.
  repeat split; try done. intros ev ls H. exists []. by rewrite app_nil_r.
Qed.

Lemma target_frame_trans obj w1 w2 w3 :
  target_frame obj w1 w2 → target_frame obj w2 w3 → target_frame obj w1 w3.
Proof.
  intros (Hk & He & Ho & Hl & Hn & Hd & Hc & Hi)
         (Hk' & He' & Ho' & Hl' & Hn' & Hd' & Hc' & Hi').
  repeat split; try congruence.
  - intros H. by apply Hk, Hk'.
  - intros H. by apply Hk', Hk.
  - intros k ev H. by apply He', He.
  - intros o H. by rewrite Ho', Ho.
  - intros ev ls H. destruct (Hl _ _ H) as [more H2].
    destruct (Hl' _ _ H2) as [more' H3]. exists (more ++ more').
    by rewrite app_assoc.
  - intros ev H. by apply Hn', Hn.
Qed.

Lemma target_frame_registered obj ev handler w :
  target_frame obj w (registered ev handler w).
Proof.
  repeat split; try done; cbn.
  - intros ev' ls H. destruct (decide (ev = ev')) as [<-|Hne].
    + exists [handler]. by rewrite lookup_alter_eq, H.
    + exists []. by rewrite lookup_alter_ne, app_nil_r.
  - intros ev' H. destruct (decide (ev = ev')) as [<-|Hne].
    + by rewrite lookup_alter_eq, H.
    + by rewrite lookup_alter_ne.
Qed.

Lemma target_frame_assigned obj key v m w :
  members_of obj w !! key = Some m → (∀ ev, m ≠ VEvent ev) →
  target_frame obj w (assigned obj key v w).
Proof.
  intros Hk Hm. repeat split; try done.
  - rewrite members_of_assigned. destruct (decide (key = k)) as [<-|Hne].
    + rewrite Hk. eauto.
    + by rewrite lookup_insert_ne.
  - rewrite members_of_assigned. destruct (decide (key = k)) as [<-|Hne].
    + rewrite lookup_insert_eq. eauto.
    + by rewrite lookup_insert_ne.
  - intros k ev H. rewrite members_of_assigned.
    destruct (decide (key = k)) as [<-|Hne].
    + rewrite Hk in H. injection H as ->. by destruct (Hm ev).
    + by rewrite lookup_insert_ne.
  - intros o Ho. cbn. by rewrite lookup_insert_ne.
  - intros ev ls H. exists []. by rewrite app_nil_r.
Qed.

(** The frame of a run of the loop, and its console: nothing more on a
    return, one line more on a throw. *)
Lemma setOptions_loop_frame obj entries w :
  target_frame obj w (setOptions_loop obj entries w).2 ∧
  match (setOptions_loop obj entries w).1 with
  | Normal _ => console (setOptions_loop obj entries w).2 = console w
  | Throw t =>
      ∃ key, key ∈ entries.*1 ∧ t = ThrownString (not_defined key) ∧
             console (setOptions_loop obj entries w).2 =
               console w ++ [not_defined key]
  end.
Proof.
  revert w. induction entries as [|[key v] rest IH]; intros w.
  { split; [apply target_frame_refl|done]. }
  destruct (members_of obj w !! key) as [m|] eqn:Hk.
  - assert (∃ w1, setOptions_loop obj ((key, v) :: rest) w =
                    setOptions_loop obj rest w1 ∧
                  target_frame obj w w1 ∧ console w1 = console w)
      as (w1 & -> & Hf & Hc).
    { destruct (event_or_not m) as [[ev ->]|Hm].
      - eexists. split; [by apply setOptions_loop_event|].
        split; [apply target_frame_registered|done].
      - eexists. split; [by eapply setOptions_loop_assign|].
        split; [by eapply target_frame_assigned|done]. }
    destruct (IH w1) as [Hf1 Hc1]. split.
    + by eapply target_frame_trans.
    + destruct (setOptions_loop obj rest w1).1.
      * congruence.
      * destruct Hc1 as (key' & Hin & -> & Hc1). exists key'.
        split; [cbn; by right|]. split; [done|]. congruence.
  - rewrite (setOptions_loop_missing _ _ _ _ _ Hk). cbn [fst snd]. split.
    + repeat split; try done. intros ev ls H. exists []. by rewrite app_nil_r.
    + exists key. split; [cbn; left|done].
Qed.

(** X15: however a call of [setOptions] ends, a member of the target that
    is an [Event] is still that event afterwards (an option never
    overwrites an event), no event has appeared or disappeared, and the
    listeners an event had are still there, in their order, before any new
    ones. *)
Theorem setOptions_keeps_events (obj : nat) (opts : options) (w : world) :
  let w' := (setOptions obj opts w).2 in
  (∀ k ev, members_of obj w !! k = Some (VEvent ev) →
     members_of obj w' !! k = Some (VEvent ev)) ∧
  (∀ ev ls, events w !! ev = Some ls →
     ∃ more, events w' !! ev = Some (ls ++ more)) ∧
  (∀ ev, events w !! ev = None → events w' !! ev = None).
Proof.
  destruct opts as [| |entries]; cbn [setOptions]; cbn zeta.
  1,2: repeat split; try done; intros ev ls H; exists []; by rewrite app_nil_r.
  by destruct (setOptions_loop_frame obj entries w)
    as [(_ & He & _ & Hl & Hn & _) _].
Qed.

(** X16: applying two option objects in turn is applying their entries in
    one call: when the first call returns, the call on the entries of both
    ends as the second call does from where the first left off; when the
    first call throws, so does the call on both, in the same world. *)
Theorem setOptions_sequence (obj : nat) (e1 e2 : list (string * value)) (w : world) :
  (∀ w1, setOptions obj (OObject e1) w = (Normal tt, w1) →
     setOptions obj (OObject (e1 ++ e2)) w = setOptions obj (OObject e2) w1) ∧
  (∀ t w1, setOptions obj (OObject e1) w = (Throw t, w1) →
     setOptions obj (OObject (e1 ++ e2)) w = (Throw t, w1)).
Proof.
  cbn [setOptions]. split.
  - intros w1 H. by rewrite setOptions_loop_app, H.
  - intros t w1 H. by rewrite setOptions_loop_app, H.
Qed.

(** ** [getElement]: when it returns, and what *)

Section GetElementMore.
Context `{P : Platform}.

Lemma find_some_first {A} (f : A → bool) (l : list A) (x : A) :
  List.find f l = Some x →
  ∃ pre post, l = pre ++ x :: post ∧ Forall (λ y, f y = false) pre ∧ f x = true.
Proof.
  induction l as [|y l IH]; cbn; [done|]. destruct (f y) eqn:Hy.
  - intros [= ->]. by exists [], l.
  - intros H. destruct (IH H) as (pre & post & -> & Hpre & Hx).
    exists (y :: pre), post. split; [done|]. split; [by constructor|done].
Qed.

(** X18: [getElement] returns exactly when the selector is an element, or
    is a string that parses as a selector and that some element of the
    document matches; in every other case it throws. *)
Theorem getElement_returns_iff (selector : value) (w : world) :
  (∃ r w', getElement selector w = (Normal r, w')) ↔
  (∃ e, selector = VElement e) ∨
  (∃ s e, selector = VString s ∧ valid_selector s = true ∧
          e ∈ document w ∧ Element_matches e s = true).
Proof.
  split.
  - intros (r & w' & H). destruct selector; try discriminate H; [|by eauto].
    right. unfold getElement, querySelector in H. run_M.
    destruct (valid_selector s) eqn:Hs; [|discriminate H]. cbn in H.
    destruct (List.find _ _) as [e|] eqn:Hf; [|discriminate H].
    destruct (find_some_first _ _ _ Hf) as (pre & post & Hdoc & _ & He).
    exists s, e. repeat split; try done. rewrite Hdoc. set_solver.
  - intros [[e ->]|(s & e & -> & Hs & Hin & He)]; [by eauto|].
    rewrite getElement_string by done.
    destruct (List.find _ _) as [e'|] eqn:Hf; [by eauto|].
    exfalso. apply list_elem_of_In in Hin.
    apply (List.find_none _ _ Hf) in Hin. congruence.
Qed.

(** X19: what [getElement] returns for a string is an element of the
    document that matches the string, none of the elements before it
    matching; and the call changes nothing. *)
Theorem getElement_first_match (s : string) (r : value) (w w' : world) :
  getElement (VString s) w = (Normal r, w') →
  w' = w ∧ valid_selector s = true ∧
  ∃ pre e post,
    r = VElement e ∧ document w = pre ++ e :: post ∧
    Forall (λ e', Element_matches e' s = false) pre ∧
    Element_matches e s = true.
Proof.
  intros H. unfold getElement, querySelector in H. run_M.
  destruct (valid_selector s) eqn:Hs; [|discriminate H]. cbn in H.
  destruct (List.find _ _) as [e|] eqn:Hf; [|discriminate H].
  cbn in H. injection H as <- <-.
  destruct (find_some_first _ _ _ Hf) as (pre & post & Hdoc & Hpre & He).
  split; [done|]. split; [done|]. by exists pre, e, post.
Qed.

(** X20: resolving what [getElement] returned gives the same element again:
    the result of a call can be passed wherever a selector is expected. *)
Theorem getElement_idempotent (selector r : value) (w w' : world) :
  getElement selector w = (Normal r, w') →
  getElement r w' = (Normal r, w').
Proof.
  intros H.
  assert (instanceof_Element r = true) as Hr.
  { unfold getElement, querySelector in H. run_M.
    destruct selector; cbn in H; try discriminate H; try (by injection H as <- <-).
    destruct (valid_selector s); [|discriminate H]. cbn in H.
    destruct (List.find _ _); [|discriminate H]. by injection H as <- <-. }
  by destruct r.
Qed.

End GetElementMore.

Lemma getElement_first_match_witness :
  sample_world = sample_world ∧
  @valid_selector sample_platform ".bar" = true ∧
  ∃ pre e post,
    VElement 4 = VElement e ∧ document sample_world = pre ++ e :: post ∧
    Forall (λ e', @Element_matches sample_platform e' ".bar" = false) pre ∧
    @Element_matches sample_platform e ".bar" = true.
Proof.
  apply (@getElement_first_match sample_platform ".bar" (VElement 4)
           sample_world sample_world).
  vm_compute. reflexivity.
Defined.

Lemma getElement_idempotent_witness :
  @getElement sample_platform (VElement 4) sample_world =
    (Normal (VElement 4), sample_world).
Proof.
  apply (@getElement_idempotent sample_platform (VString ".bar") (VElement 4)
           sample_world sample_world).
  vm_compute. reflexivity.
Defined.

(** ** [format]: which formatters a sequence of calls creates *)

Section FormatMore.
Context `{P : Platform}.

Lemma getNumberFormat_dom (d : nat) (w : world) :
  cache_wf w →
  dom (_numberFormats (_getNumberFormat d w).2) =
    dom (_numberFormats w) ∪
    (if decide (d ≤ fraction_digits_limit) then {[d]} else ∅).
Proof.
  intros Hwf. destruct (_numberFormats w !! d) as [nf|] eqn:Hd.
  - rewrite (getNumberFormat_hit _ _ _ Hd). cbn [snd].
    destruct (proj1 Hwf _ _ Hd) as (_ & _ & _ & _ & Hle & _).
    rewrite decide_True by done. apply elem_of_dom_2 in Hd. set_solver.
  - case_decide as Hle.
    + rewrite (getNumberFormat_miss _ _ Hd Hle). cbn. rewrite dom_insert_L.
      set_solver.
    + rewrite (getNumberFormat_refused _ _ Hd) by lia. cbn. set_solver.
Qed.

Lemma exec_formats_dom (calls : list (float * option nat)) (w : world) :
  cache_wf w →
  dom (_numberFormats (exec_formats calls w)) =
    dom (_numberFormats w) ∪ accepted_counts calls.
Proof.
  revert w. induction calls as [|[v d] rest IH]; intros w Hwf.
  { unfold accepted_counts. cbn. set_solver. }
  cbn [exec_formats]. rewrite format_world.
  destruct (getNumberFormat_preserves (default 2 d) w Hwf) as [Hwf' _].
  rewrite (IH _ Hwf'), getNumberFormat_dom by done.
  unfold accepted_counts. cbn [fmap list_fmap snd]. rewrite filter_cons.
  case_decide; set_solver.
Qed.

(** X21: after any sequence of calls of [format] from the freshly loaded
    module, the cache holds a formatter for exactly the decimal counts that
    were asked for and that the platform accepts (an omitted count is 2),
    and the module has constructed exactly one formatter for each of them,
    however often a count was asked for. *)
Theorem format_creates_once (calls : list (float * option nat)) :
  dom (_numberFormats (exec_formats calls initial_world)) = accepted_counts calls ∧
  nf_created (exec_formats calls initial_world) = size (accepted_counts calls).
Proof.
  pose proof (exec_formats_dom calls initial_world initial_cache_wf) as Hdom.
  cbn in Hdom. rewrite dom_empty_L, (left_id_L ∅ (∪)) in Hdom.
  split; [done|].
  destruct (exec_formats_preserves calls initial_world initial_cache_wf)
    as [(_ & _ & Hsize) _].
  by rewrite <- Hsize, <- Hdom, size_dom.
Qed.

End FormatMore.

(** ** [bind] *)

Section Bind.
Context `{F : FormControls}.

(** What a successful call of [bind] builds. *)
Lemma bind_some id initialValue onInput suffix pg input st :
  controls pg !! id = Some input →
  set_initial_value input initialValue = Normal st →
  let isCheck := String.eqb (ctl_type input) "checkbox" in
  let isNumber :=
    String.eqb (ctl_type input) "range" || String.eqb (ctl_type input) "number" in
  let span :=
    if String.eqb (ctl_type input) "range" then Some (next_span pg) else None in
  bind id initialValue onInput suffix pg =
    (Normal tt,
     mkPage
       (<[id := mkControl (ctl_type input) (ctl_isSelect input) st
                  (from_option (λ s, s :: ctl_after input) (ctl_after input) span)
                  (ctl_listeners input ++
                   [mkListener span isCheck (ctl_isSelect input) isNumber
                               onInput suffix])]> (controls pg))
       (from_option (λ s, <[s := label_text st suffix]> (spans pg)) (spans pg) span)
       (from_option (λ _, S (next_span pg)) (next_span pg) span)
       (invoked pg)).
Proof. intros H Hw. unfold bind. by rewrite H, Hw. Qed.

(** A call of [bind] that returns has written the initial value. *)
Lemma bind_returned id initialValue onInput suffix pg pg' input :
  controls pg !! id = Some input →
  bind id initialValue onInput suffix pg = (Normal tt, pg') →
  ∃ st, set_initial_value input initialValue = Normal st.
Proof.
  intros H Hb. unfold bind in Hb. rewrite H in Hb.
  destruct (set_initial_value input initialValue); [eauto|discriminate Hb].
Qed.

(** X22: [bind] throws a [TypeError] when no element has the id, and the
    error of the platform when the control refuses the initial value; a
    call that throws has changed nothing: no span, no listener.  Otherwise
    it returns, the control being in the state the write left, having
    registered one listener on the control after those already there, with
    the type of the control, every other control, every span there was and
    the record of callback calls as before: binding does not call
    [onInput]. *)
Theorem bind_frame (id : string) (initialValue : value) (onInput : nat)
    (suffix : string) (pg : page) :
  (controls pg !! id = None →
   bind id initialValue onInput suffix pg = (Throw (ThrownError "TypeError"), pg)) ∧
  (∀ input t, controls pg !! id = Some input →
   set_initial_value input initialValue = Throw t →
   bind id initialValue onInput suffix pg = (Throw t, pg)) ∧
  (∀ input st, controls pg !! id = Some input →
   set_initial_value input initialValue = Normal st →
   ∃ pg' input' l,
     bind id initialValue onInput suffix pg = (Normal tt, pg') ∧
     controls pg' !! id = Some input' ∧
     ctl_state input' = st ∧
     ctl_type input' = ctl_type input ∧
     ctl_isSelect input' = ctl_isSelect input ∧
     ctl_listeners input' = ctl_listeners input ++ [l] ∧
     l_onInput l = onInput ∧ l_suffix l = suffix ∧
     (∀ id', id' ≠ id → controls pg' !! id' = controls pg !! id') ∧
     (∀ s, s ≠ next_span pg → spans pg' !! s = spans pg !! s) ∧
     invoked pg' = invoked pg) ∧
  (∀ t pg', bind id initialValue onInput suffix pg = (Throw t, pg') → pg' = pg).
Proof.
  split; [|split; [|split]].
  - intros H. unfold bind. by rewrite H.
  - intros input t H Hw. unfold bind. by rewrite H, Hw.
  - intros input st H Hw. eexists _, _, _. rewrite (bind_some _ _ _ _ _ _ _ H Hw).
    split; [reflexivity|]. cbn [controls spans invoked].
    rewrite lookup_insert_eq. split; [reflexivity|]. cbn.
    repeat split; try done.
    + intros id' Hne. by rewrite lookup_insert_ne.
    + intros s Hs. destruct (String.eqb (ctl_type input) "range"); cbn; [|done].
      by rewrite lookup_insert_ne.
  - intros t pg' Hb. unfold bind in Hb.
    destruct (controls pg !! id) as [input|]; [|by injection Hb].
    destruct (set_initial_value input initialValue); [discriminate Hb|].
    by injection Hb.
Qed.

(** X23: [bind] gives a label to a control of type [range] and to no
    other: for a range it creates one span, puts it right after the
    control, before the spans already there, and sets its text to a space,
    the value of the control (as it is once the initial value is applied)
    and the suffix; for any other type, a [number] input included, no span
    is created and none is changed. *)
Theorem bind_label (id : string) (initialValue : value) (onInput : nat)
    (suffix : string) (pg pg' : page) (input : control) :
  controls pg !! id = Some input →
  bind id initialValue onInput suffix pg = (Normal tt, pg') →
  ∃ input',
    controls pg' !! id = Some input' ∧
    (ctl_type input = "range" →
     ctl_after input' = next_span pg :: ctl_after input ∧
     spans pg' = <[next_span pg := label_text (ctl_state input') suffix]> (spans pg) ∧
     next_span pg' = S (next_span pg)) ∧
    (ctl_type input ≠ "range" →
     ctl_after input' = ctl_after input ∧ spans pg' = spans pg ∧
     next_span pg' = next_span pg).
Proof.
  intros H Hb. destruct (bind_returned _ _ _ _ _ _ _ H Hb) as [st Hw].
  rewrite (bind_some _ _ _ _ _ _ _ H Hw) in Hb. injection Hb as <-.
  eexists. cbn [controls spans next_span]. rewrite lookup_insert_eq.
  split; [reflexivity|]. cbn [ctl_after ctl_state]. split.
  - intros ->. by cbn.
  - intros Hne. destruct (String.eqb_spec (ctl_type input) "range"); by cbn.
Qed.

(** A run of the listeners of a control, the control being in state [st]. *)
Lemma run_listeners (st : form_state) (ls : list listener) (pg : page) :
  let pg' := foldl (run_listener st) pg ls in
  controls pg' = controls pg ∧
  next_span pg' = next_span pg ∧
  invoked pg' = invoked pg ++ ((λ l, (l_onInput l, listener_arg l st)) <$> ls) ∧
  (∀ s, s ∉ listener_spans ls → spans pg' !! s = spans pg !! s) ∧
  (NoDup (listener_spans ls) →
   ∀ l s, l ∈ ls → l_span l = Some s →
     spans pg' !! s = Some (label_text st (l_suffix l))).
Proof.
  revert pg. induction ls as [|l ls IH]; intros pg.
  { cbn. rewrite app_nil_r. repeat split; try done.
    intros _ l s Hin. by apply elem_of_nil in Hin. }
  cbn [foldl]. destruct (IH (run_listener st pg l)) as (Hc & Hn & Hi & Hs & Hd).
  cbn zeta. split; [by rewrite Hc|]. split; [by rewrite Hn|].
  split; [rewrite Hi; cbn; by rewrite <- app_assoc|].
  unfold listener_spans in *. cbn [omap list_omap].
  split.
  - intros s Hnot. rewrite Hs.
    + cbn. destruct (l_span l) as [s'|]; cbn in *; [|done].
      rewrite lookup_insert_ne; [done|]. intros ->. apply Hnot. left.
    + intros Hin. apply Hnot. destruct (l_span l); [by right|done].
  - intros Hnd l' s Hin Hspan. apply elem_of_cons in Hin as [->|Hin].
    + rewrite Hspan in Hnd. apply NoDup_cons in Hnd as [Hnot _].
      rewrite Hs by done. cbn. rewrite Hspan. cbn. by rewrite lookup_insert_eq.
    + apply Hd; try done. destruct (l_span l); [|done].
      by apply NoDup_cons in Hnd as [_ ?].
Qed.

(** X24: when every listener of the control has a span of its own (as
    [bind] arranges), then after an [input] event every label of the
    control shows a space, the value the control has and the suffix of its
    binding; the event changes no control and creates no span. *)
Theorem input_event_labels (id : string) (pg : page) :
  page_wf pg →
  labels_in_sync id (input_event id pg) ∧
  controls (input_event id pg) = controls pg ∧
  next_span (input_event id pg) = next_span pg.
Proof.
  intros Hwf. unfold input_event, labels_in_sync.
  destruct (controls pg !! id) as [input|] eqn:H.
  2: { split; [|done]. intros c l s Hc. congruence. }
  destruct (run_listeners (ctl_state input) (ctl_listeners input) pg)
    as (Hc & Hn & _ & _ & Hd).
  split; [|done]. intros c l s Hlook Hin Hspan. rewrite Hc, H in Hlook.
  injection Hlook as <-. apply Hd; try done. by apply (Hwf id).
Qed.

(** [bind] keeps the page as [bind] builds it. *)
Lemma bind_page_wf id initialValue onInput suffix pg :
  page_wf pg → page_wf (bind id initialValue onInput suffix pg).2.
Proof.
  intros Hwf. destruct (controls pg !! id) as [input|] eqn:H.
  2: { unfold bind. by rewrite H. }
  destruct (set_initial_value input initialValue) as [st|t] eqn:Hw.
  2: { unfold bind. by rewrite H, Hw. }
  rewrite (bind_some _ _ _ _ _ _ _ H Hw). cbn [snd].
  intros id' c. cbn [controls next_span].
  destruct (decide (id = id')) as [<-|Hne].
  - rewrite lookup_insert_eq. intros [= <-]. cbn [ctl_listeners].
    destruct (Hwf _ _ H) as [Hnd Hlt]. unfold listener_spans in *.
    rewrite omap_app. cbn [omap list_omap l_span].
    destruct (String.eqb (ctl_type input) "range"); cbn.
    + split.
      * apply NoDup_app. split; [done|]. split; [|apply NoDup_singleton].
        intros s Hs Hin. apply list_elem_of_singleton in Hin as ->.
        rewrite Forall_forall in Hlt. specialize (Hlt _ Hs). lia.
      * apply Forall_app. split; [|by repeat constructor].
        eapply Forall_impl; [exact Hlt|]. cbn. lia.
    + by rewrite app_nil_r.
  - rewrite lookup_insert_ne by done. intros Hc.
    destruct (Hwf _ _ Hc) as [Hnd Hlt]. split; [done|].
    eapply Forall_impl; [exact Hlt|]. cbn.
    destruct (String.eqb (ctl_type input) "range"); cbn; lia.
Qed.

Lemma input_event_page_wf id pg : page_wf pg → page_wf (input_event id pg).
Proof.
  intros Hwf. unfold input_event. destruct (controls pg !! id) as [input|]; [|done].
  destruct (run_listeners (ctl_state input) (ctl_listeners input) pg)
    as (Hc & Hn & _).
  intros id' c. rewrite Hc, Hn. apply Hwf.
Qed.

(** X25: once [bind] has returned, an [input] event on the control calls
    [onInput] once, after the callbacks bound before, with the [checked]
    flag if the control was a checkbox when it was bound, else the selected
    index if it is a select element, else the numeric value if its type was
    [range] or [number], else the text; the property is read from the state
    the control has at the event, and the choice is the one made at binding,
    whatever the type of the control has become. *)
Theorem bind_then_input (id : string) (initialValue : value) (onInput : nat)
    (suffix : string) (pg pg1 pg2 : page) (input c1 c2 : control) :
  controls pg !! id = Some input →
  bind id initialValue onInput suffix pg = (Normal tt, pg1) →
  controls pg1 !! id = Some c1 →
  controls pg2 !! id = Some c2 →
  ctl_listeners c2 = ctl_listeners c1 →
  let st := ctl_state c2 in
  invoked (input_event id pg2) =
    invoked pg2 ++
    ((λ l, (l_onInput l, listener_arg l st)) <$> ctl_listeners input) ++
    [(onInput,
      if String.eqb (ctl_type input) "checkbox" then ABoolean (read_checked st)
      else if ctl_isSelect input then ANumber (JNum (IZR (read_selectedIndex st)))
      else if String.eqb (ctl_type input) "range"
              || String.eqb (ctl_type input) "number"
           then ANumber (read_valueAsNumber st)
      else AString (read_value st))].
Proof.
  intros H Hb H1 H2 Hls st. destruct (bind_returned _ _ _ _ _ _ _ H Hb) as [st0 Hw].
  rewrite (bind_some _ _ _ _ _ _ _ H Hw) in Hb. injection Hb as <-. cbn [controls] in H1. rewrite lookup_insert_eq in H1.
  injection H1 as <-. cbn [ctl_listeners] in Hls.
  unfold input_event. rewrite H2.
  destruct (run_listeners (ctl_state c2) (ctl_listeners c2) pg2)
    as (_ & _ & -> & _). rewrite Hls, fmap_app. reflexivity.
Qed.

(** X26: on a platform that stores the boolean written to [checked],
    binding a checkbox with a boolean sets its checked state to it; and
    when the box is later in any state and an [input] event fires, the last
    call is [onInput] with the checked state the box then has. *)
Theorem bind_checkbox (id : string) (b : bool) (onInput : nat)
    (suffix : string) (pg : page) (input : control) :
  (∀ b' st, ∃ st',
     write_checked (VBoolean b') st = Normal st' ∧ read_checked st' = b') →
  controls pg !! id = Some input →
  ctl_type input = "checkbox" →
  ∃ pg1 c1,
    bind id (VBoolean b) onInput suffix pg = (Normal tt, pg1) ∧
    controls pg1 !! id = Some c1 ∧
    read_checked (ctl_state c1) = b ∧
    ∀ st',
      let pg2 := mkPage (<[id := mkControl (ctl_type c1) (ctl_isSelect c1) st'
                                   (ctl_after c1) (ctl_listeners c1)]> (controls pg1))
                        (spans pg1) (next_span pg1) (invoked pg1) in
      last (invoked (input_event id pg2)) = Some (onInput, ABoolean (read_checked st')).
Proof.
  intros Hlaw H Hty. destruct (Hlaw b (ctl_state input)) as (st & Hw & Hread).
  assert (set_initial_value input (VBoolean b) = Normal st) as Hset.
  { unfold set_initial_value. by rewrite Hty. }
  eexists _, _. rewrite (bind_some _ _ _ _ _ _ _ H Hset).
  split; [reflexivity|]. cbn [controls]. rewrite lookup_insert_eq.
  split; [reflexivity|]. cbn [ctl_state ctl_type ctl_isSelect ctl_after ctl_listeners
                              spans next_span invoked].
  rewrite Hty. cbn [String.eqb Ascii.eqb Bool.eqb andb]. split; [done|].
  intros st'. cbn zeta. unfold input_event. cbn [controls].
  rewrite lookup_insert_eq. cbn [ctl_state ctl_listeners].
  match goal with
  | |- context [foldl (run_listener ?s) ?p ?ls] =>
      destruct (run_listeners s ls p) as (_ & _ & -> & _)
  end.
  rewrite fmap_app, app_assoc. cbn [fmap list_fmap]. rewrite last_snoc.
  reflexivity.
Qed.

End Bind.

(** The sample page: binding the checkbox with [true], unchecking it and
    firing the event calls the callback with [false]. *)
Lemma bind_checkbox_witness :
  ∃ pg1 c1,
    @bind sample_controls "mute" (VBoolean true) 1 EmptyString sample_page =
      (Normal tt, pg1) ∧
    controls pg1 !! "mute" = Some c1 ∧
    @read_checked sample_controls (ctl_state c1) = true ∧
    ∀ st',
      let pg2 := @mkPage sample_controls
                   (<[ "mute" := @mkControl sample_controls (ctl_type c1)
                                   (ctl_isSelect c1) st' (ctl_after c1)
                                   (ctl_listeners c1)]> (controls pg1))
                   (spans pg1) (next_span pg1) (invoked pg1) in
      last (invoked (@input_event sample_controls "mute" pg2)) =
        Some (1, ABoolean (@read_checked sample_controls st')).
Proof.
  apply (@bind_checkbox sample_controls "mute" true 1 EmptyString sample_page
           (@mkControl sample_controls "checkbox" false
              (mkSampleState false 0 JNaN "on" false) [] [])).
  - intros b' st. eexists. split; reflexivity.
  - vm_compute. reflexivity.
  - reflexivity.
Defined.

(** The sample page has no listener yet. *)
Lemma sample_page_wf : @page_wf sample_controls sample_page.
Proof.
  intros id c H. unfold sample_page in H. cbn [controls] in H.
  apply lookup_insert_Some in H as [[<- <-]|[_ H]]; [cbn; split; constructor|].
  apply lookup_insert_Some in H as [[<- <-]|[_ H]]; [cbn; split; constructor|].
  apply lookup_singleton_Some in H as [<- <-]. cbn. split; constructor.
Qed.

(** The file chooser of the sample page refuses a value: [bind] throws the
    error of the platform and the page is as it was. *)
Example bind_refused :
  @bind sample_controls "upload" (VString "report.txt") 3 EmptyString sample_page =
    (Throw (ThrownError "InvalidStateError"), sample_page).
Proof. vm_compute. reflexivity. Qed.

(** The slider of the sample page, bound with the suffix [%]. *)
Lemma bind_label_witness :
  ∃ input',
    controls (@bind sample_controls "speed" (VNumber 75) 2 "%" sample_page).2
      !! "speed" = Some input' ∧
    ("range" = "range" →
     ctl_after input' = 0 :: [] ∧
     spans (@bind sample_controls "speed" (VNumber 75) 2 "%" sample_page).2 =
       <[0 := @label_text sample_controls (ctl_state input') "%"]> ∅ ∧
     next_span (@bind sample_controls "speed" (VNumber 75) 2 "%" sample_page).2 = 1) ∧
    ("range" ≠ "range" →
     ctl_after input' = [] ∧
     spans (@bind sample_controls "speed" (VNumber 75) 2 "%" sample_page).2 = ∅ ∧
     next_span (@bind sample_controls "speed" (VNumber 75) 2 "%" sample_page).2 = 0).
Proof.
  apply (@bind_label sample_controls "speed" (VNumber 75) 2 "%" sample_page
           (@bind sample_controls "speed" (VNumber 75) 2 "%" sample_page).2
           (@mkControl sample_controls "range" false
              (mkSampleState false 0 (JNum 50) "50" false) [] [])).
  - reflexivity.
  - reflexivity.
Defined.

(** After the slider is bound and an input event has fired, its label is in
    sync. *)
Lemma input_event_labels_witness :
  @labels_in_sync sample_controls "speed"
    (@input_event sample_controls "speed"
       (@bind sample_controls "speed" (VNumber 75) 2 "%" sample_page).2) ∧
  controls (@input_event sample_controls "speed"
              (@bind sample_controls "speed" (VNumber 75) 2 "%" sample_page).2) =
    controls (@bind sample_controls "speed" (VNumber 75) 2 "%" sample_page).2 ∧
  next_span (@input_event sample_controls "speed"
               (@bind sample_controls "speed" (VNumber 75) 2 "%" sample_page).2) =
    next_span (@bind sample_controls "speed" (VNumber 75) 2 "%" sample_page).2.
Proof.
  apply (@input_event_labels sample_controls "speed").
  apply bind_page_wf, sample_page_wf.
Defined.

(** The slider bound, then an input event: the callback receives the
    numeric value. *)
Lemma bind_then_input_witness :
  invoked (@input_event sample_controls "speed"
             (@bind sample_controls "speed" (VNumber 75) 2 "%" sample_page).2) =
    [] ++ [] ++ [(2, ANumber (JNum 75))].
Proof.
  exact (@bind_then_input sample_controls "speed" (VNumber 75) 2 "%" sample_page
           (@bind sample_controls "speed" (VNumber 75) 2 "%" sample_page).2
           (@bind sample_controls "speed" (VNumber 75) 2 "%" sample_page).2
           (@mkControl sample_controls "range" false
              (mkSampleState false 0 (JNum 50) "50" false) [] [])
           (@mkControl sample_controls "range" false
              (mkSampleState false 0 (JNum 75) "50" false) [0]
              [mkListener (Some 0) false false true 2 "%"])
           (@mkControl sample_controls "range" false
              (mkSampleState false 0 (JNum 75) "50" false) [0]
              [mkListener (Some 0) false false true 2 "%"])
           eq_refl eq_refl eq_refl eq_refl eq_refl).
Defined.
